(** * Directed graphs with traversal, topological sort and a cycle-safe DAG

    A shallow embedding of [student_code.py]: the three classes
    [SortableDigraph], [TraversableDigraph] and [DAG], and the properties
    their methods satisfy.

    The adjacency dictionary [self.adj] is an insertion-ordered Python dict
    from nodes to lists of nodes.  Its iteration order is observable
    ([topsort] walks the keys, [dfs]/[bfs] default to the first key), so it
    is modelled as an association list in insertion order.  The [visited]
    sets are finite sets ([gset]).  Generators are modelled by the finite
    list of values they yield.

    Nodes are values of a type with decidable equality; Python's [None],
    which [dfs] and [bfs] read as "no start given", is not a node.  The
    recursive searches carry a recursion budget computed from the
    dictionary; running out of it is a distinct outcome, and each search is
    proved never to reach it.  The interpreter's own recursion limit is not
    part of the model. *)

From stdpp Require Import gmap list relations sorting.

(** ** The adjacency dictionary *)

Module Adj.
Section adj.
Context {node : Type} `{Countable node}.

(** [self.adj]: keys in insertion order, each with its neighbour list. *)
Definition t : Type := list (node * list node).

(** [self.adj.keys()] *)
Definition keys (adj : t) : list node := adj.*1.

(** [self.adj[k]], [None] standing for Python's [KeyError]. *)
Fixpoint lookup (adj : t) (k : node) : option (list node) :=
  match adj with
  | [] => None
  | (k', ns) :: rest => if decide (k' = k) then Some ns else lookup rest k
  end.

(** [self.adj.get(k, [])] *)
Definition get (adj : t) (k : node) : list node := default [] (lookup adj k).

(** [self.adj[k] = []] for a key that is not yet present: the new key goes
    to the end of the iteration order. *)
Definition insert_new (adj : t) (k : node) : t := adj ++ [(k, [])].

(** [self.adj[u].append(v)]; [None] is the [KeyError] of [self.adj[u]]. *)
Fixpoint append (adj : t) (u v : node) : option t :=
  match adj with
  | [] => None
  | (k, ns) :: rest =>
      if decide (k = u) then Some ((k, ns ++ [v]) :: rest)
      else cons (k, ns) <$> append rest u v
  end.

(** Every node mentioned anywhere in the dictionary, keys first. *)
Definition mentioned (adj : t) : list node := keys adj ++ concat adj.*2.

(** The edge relation of the dictionary: [v] occurs in [adj[u]]. *)
Definition edge (adj : t) (u v : node) : Prop := v ∈ get adj u.

(** Directed paths of zero or more edges. *)
Definition path (adj : t) : relation node := rtc (edge adj).

(** No node lies on a directed cycle (one or more edges back to itself). *)
Definition acyclic (adj : t) : Prop := ∀ x, ¬ tc (edge adj) x x.

(** No dangling reference: every neighbour is itself a key. *)
Definition closed (adj : t) : Prop :=
  ∀ u v, edge adj u v → v ∈ keys adj.

(** The invariant of the data model: keys are distinct (it is a dict) and
    every neighbour is a key.  These are exactly the dictionaries a graph
    object can hold ([wf_iff_reachable] below). *)
Definition wf (adj : t) : Prop := NoDup (keys adj) ∧ closed adj.
End adj.
End Adj.


(** ** Outcomes of a method call

    A method runs against the object's dictionary and either returns,
    raises, or fails to terminate within the recursion budget of the
    model ([Diverges]; the theorems below show it never happens). The
    dictionary after the call is part of the outcome, also when the call
    raises: Python does not roll back mutations made before a [raise]. *)

Module Eff.
Section eff.
Context {node : Type} `{Countable node}.

Inductive exn : Type :=
| KeyError (k : node)
(** [ValueError(f"Adding edge ({u} -> {v}) would create a cycle")]: the
    message is determined by the two interpolated nodes. *)
| ValueError (u v : node).

Inductive outcome (X : Type) : Type :=
| Returns (x : X)
| Raises (e : exn)
| Diverges.
Global Arguments Returns {X} x.
Global Arguments Raises {X} e.
Global Arguments Diverges {X}.

Definition M (X : Type) : Type := @Adj.t node → outcome X * @Adj.t node.

Definition ret {X} (x : X) : M X := λ adj, (Returns x, adj).

Definition bind {X Y} (m : M X) (k : X → M Y) : M Y := λ adj,
  match m adj with
  | (Returns x, adj') => k x adj'
  | (Raises e, adj') => (Raises e, adj')
  | (Diverges, adj') => (Diverges, adj')
  end.

Definition raise {X} (e : exn) : M X := λ adj, (Raises e, adj).

(** A read-only computation on the dictionary with a recursion budget. *)
Definition query {X} (q : @Adj.t node → option X) : M X := λ adj,
  match q adj with
  | Some x => (Returns x, adj)
  | None => (Diverges, adj)
  end.
End eff.
End Eff.

Notation "x ←← m ; k" := (Eff.bind m (λ x, k))
  (at level 20, m at level 100, k at level 200, right associativity,
   only parsing).
Notation "m ;;; k" := (Eff.bind m (λ _, k))
  (at level 100, k at level 200, right associativity, only parsing).

(** ** class SortableDigraph *)

Module SortableDigraph.
Section sortable.
Context {node : Type} `{Countable node}.
Implicit Types (adj : @Adj.t node) (u v w : node).

(** [__init__]: [self.adj = {}] *)
Definition init : @Adj.t node := [].

Definition add_node (n : node) : Eff.M unit := λ adj,
  if decide (n ∈ Adj.keys adj) then (Eff.Returns (), adj)
  else (Eff.Returns (), Adj.insert_new adj n).

Definition append_neighbor (u v : node) : Eff.M unit := λ adj,
  match Adj.append adj u v with
  | Some adj' => (Eff.Returns (), adj')
  | None => (Eff.Raises (Eff.KeyError u), adj)
  end.

Definition add_edge (u v : node) : Eff.M unit :=
  add_node u ;;; add_node v ;;; append_neighbor u v.

(** The budget that bounds the depth of every recursive search: one more
    than the number of node occurrences in the dictionary. *)
Definition budget adj : nat := S (length (Adj.mentioned adj)).

(** A [for x in l: body(x)] loop over a state, aborted when the body does. *)
Fixpoint for_each {S : Type} (body : node → S → option S)
    (l : list node) (s : S) : option S :=
  match l with
  | [] => Some s
  | x :: l => s' ← body x s; for_each body l s'
  end.

(** The inner [visit] of [topsort], threading [(visited, result)]. *)
Fixpoint visit (fuel : nat) adj (n : node) (st : gset node * list node)
    : option (gset node * list node) :=
  match fuel with
  | 0 => None
  | S fuel =>
      if decide (n ∈ st.1) then Some st
      else
        st' ← for_each (visit fuel adj) (Adj.get adj n) ({[n]} ∪ st.1, st.2);
        Some (st'.1, st'.2 ++ [n])
  end.

Definition topsort adj : option (list node) :=
  st ← for_each (visit (budget adj) adj) (Adj.keys adj) (∅, []);
  Some (reverse st.2).

(** The states a [SortableDigraph] object can be in: built from
    [SortableDigraph()] by calls of [add_node] and [add_edge]. *)
Inductive reachable : @Adj.t node → Prop :=
| reachable_init : reachable init
| reachable_add_node adj n : reachable adj → reachable (add_node n adj).2
| reachable_add_edge adj u v : reachable adj → reachable (add_edge u v adj).2.

(** The dictionary with the given keys and no edge. *)
Definition blank (ks : list node) : @Adj.t node := (λ k, (k, [])) <$> ks.
End sortable.
End SortableDigraph.


(** ** class TraversableDigraph(SortableDigraph) *)

Module TraversableDigraph.
Section traversable.
Context {node : Type} `{Countable node}.
Implicit Types (adj : @Adj.t node).

(** The recursive generator [dfs(start, visited)] with both arguments
    given.  The state is the shared [visited] set together with the
    values yielded so far. *)
Fixpoint dfs_from (fuel : nat) adj (start : node)
    (st : gset node * list node) : option (gset node * list node) :=
  match fuel with
  | 0 => None
  | S fuel =>
      if decide (start ∈ st.1) then Some st
      else
        SortableDigraph.for_each
          (λ neighbor st,
             if decide (neighbor ∈ st.1) then Some st
             else dfs_from fuel adj neighbor st)
          (Adj.get adj start)
          ({[start]} ∪ st.1, st.2 ++ [start])
  end.

(** [dfs(start=None, visited=None)]: the sequence of yielded nodes. *)
Definition dfs adj (start : option node) (visited : option (gset node))
    : option (list node) :=
  let start :=
    match start with
    | None => head (Adj.keys adj)
    | Some s => Some s
    end in
  match start with
  | None => Some []
  | Some s =>
      snd <$> dfs_from (SortableDigraph.budget adj) adj s
                (default ∅ visited, [])
  end.

(** The [for neighbor in ...] loop of [bfs]: mark and enqueue every
    neighbour that is not visited yet. *)
Definition enqueue (nbrs : list node) (st : gset node * list node)
    : gset node * list node :=
  foldl (λ st neighbor,
           if decide (neighbor ∈ st.1) then st
           else ({[neighbor]} ∪ st.1, st.2 ++ [neighbor]))
        st nbrs.

(** The [while queue:] loop of [bfs]. *)
Fixpoint bfs_loop (fuel : nat) adj (visited : gset node)
    (queue : list node) : option (list node) :=
  match queue with
  | [] => Some []
  | n :: queue =>
      match fuel with
      | 0 => None
      | S fuel =>
          let st := enqueue (Adj.get adj n) (visited, queue) in
          cons n <$> bfs_loop fuel adj st.1 st.2
      end
  end.

(** [bfs(start=None)]: the sequence of yielded nodes. *)
Definition bfs adj (start : option node) : option (list node) :=
  match adj with
  | [] => Some []
  | (k, _) :: _ =>
      let start := default k start in
      bfs_loop (SortableDigraph.budget adj) adj {[start]} [start]
  end.
End traversable.
End TraversableDigraph.

(** ** class DAG(TraversableDigraph) *)

Module DAG.
Section dag.
Context {node : Type} `{Countable node}.
Implicit Types (adj : @Adj.t node).

(** The [for neighbor in ...] loop of [_has_path], which returns as soon
    as one recursive call answers [True]. *)
Fixpoint first_path (rec : node → gset node → option (bool * gset node))
    (nbrs : list node) (visited : gset node) : option (bool * gset node) :=
  match nbrs with
  | [] => Some (false, visited)
  | neighbor :: nbrs =>
      if decide (neighbor ∈ visited) then first_path rec nbrs visited
      else
        match rec neighbor visited with
        | None => None
        | Some (true, visited) => Some (true, visited)
        | Some (false, visited) => first_path rec nbrs visited
        end
  end.

(** [_has_path(start, end, visited)] with the shared [visited] set
    threaded through; the answer comes with the set as it is left. *)
Fixpoint _has_path (fuel : nat) adj (start end_ : node)
    (visited : gset node) : option (bool * gset node) :=
  match fuel with
  | 0 => None
  | S fuel =>
      if decide (start = end_) then Some (true, visited)
      else
        first_path (λ neighbor visited, _has_path fuel adj neighbor end_ visited)
          (Adj.get adj start) ({[start]} ∪ visited)
  end.

(** [self._has_path(start, end)], with [visited=None]. *)
Definition has_path adj (start end_ : node) : option bool :=
  fst <$> _has_path (SortableDigraph.budget adj) adj start end_ ∅.

Definition add_edge (u v : node) : Eff.M unit :=
  cyclic ←← Eff.query (λ adj, has_path adj v u);
  if cyclic : bool then Eff.raise (Eff.ValueError u v)
  else SortableDigraph.add_edge u v.

(** The states a [DAG] object can be in: built from [DAG()] by calls of
    [add_node] and [add_edge], whatever their outcome. *)
Inductive reachable : @Adj.t node → Prop :=
| reachable_init : reachable SortableDigraph.init
| reachable_add_node adj n :
    reachable adj → reachable (SortableDigraph.add_node n adj).2
| reachable_add_edge adj u v :
    reachable adj → reachable (add_edge u v adj).2.
End dag.
End DAG.

(** ** Vocabulary of the specification

    The notions the properties below are stated and proved with. *)

Section vocabulary.
Context {node : Type} `{Countable node}.
Implicit Types (adj : @Adj.t node) (s e n : node) (V : gset node).
Implicit Types (st : gset node * list node) (lev : node → nat).

(** The finite universe of a dictionary: every node it mentions. *)
Definition universe adj : gset node := list_to_set (Adj.mentioned adj).

(** What a failed search from visited set [V] leaves behind in [V']:
    it only grows the set, never marks the target, and every node it marks
    has all its neighbours marked. *)
Definition searched adj e V V' : Prop :=
  V ⊆ V' ∧ (e ∈ V' → e ∈ V) ∧
  ∀ x y, x ∈ V' → x ∉ V → Adj.edge adj x y → y ∈ V'.

(** The answer of [_has_path]: [True] comes with a path; [False] comes
    with a closed search that marked the start and all its neighbours. *)
Definition answer adj e s V (r : bool * gset node) : Prop :=
  if r.1 then Adj.path adj s e
  else s ≠ e ∧ s ∈ r.2 ∧ (∀ y, Adj.edge adj s y → y ∈ r.2) ∧
       searched adj e V r.2.

(** A search step extends the state [(visited, result)] by a block of
    fresh, pairwise distinct nodes: appended to the list and added to
    the set. *)
Definition extends st st' : Prop :=
  ∃ new, st'.2 = st.2 ++ new ∧ st'.1 = st.1 ∪ list_to_set new ∧
         NoDup new ∧ ∀ x, x ∈ new → x ∉ st.1.

(** In the post-order list every neighbour of an element stands at a
    smaller index than the element. *)
Definition ordered adj (R : list node) : Prop :=
  ∀ i x y, R !! i = Some x → Adj.edge adj x y →
           ∃ j, j < i ∧ R !! j = Some y.

(** The walk on an acyclic dictionary.  The nodes marked but not yet
    listed are the ones whose [visit] is still running; when each of them
    reaches the node visited next by at least one edge, that node cannot
    be one of them. *)
Definition pending_reach adj st (l : list node) : Prop :=
  ∀ g m, g ∈ st.1 → g ∉ st.2 → m ∈ l → tc (Adj.edge adj) g m.

(** What a traversal from the nodes [l] turns the state into: a block of
    fresh nodes is yielded, each reachable from [l], and every one of them
    has all its neighbours marked. *)
Definition explored adj (l : list node) st st' : Prop :=
  extends st st' ∧
  (∀ x y, x ∈ st'.1 → x ∉ st.1 → Adj.edge adj x y → y ∈ st'.1) ∧
  (∀ x, x ∈ st'.1 → x ∉ st.1 → ∃ m, m ∈ l ∧ Adj.path adj m x).

(** The body of the [for neighbor in ...] loop of [dfs]. *)
Definition dfs_body fuel adj : node → gset node * list node →
                               option (gset node * list node) :=
  λ neighbor st,
    if decide (neighbor ∈ st.1) then Some st
    else TraversableDigraph.dfs_from fuel adj neighbor st.

(** The component of [s] in the usual sense for a directed graph: the nodes
    joined to [s] by edges taken in either direction. *)
Definition component
    (adj : @Adj.t node) (s x : node) : Prop :=
  rtsc (Adj.edge adj) s x.

(** The strongly connected reading: mutually reachable nodes. *)
Definition strong_component
    (adj : @Adj.t node) (s x : node) : Prop :=
  Adj.path adj s x ∧ Adj.path adj x s.

(** The reading of traversal completeness by components, for a notion
    [comp] of component: the traversals from [s] yield exactly the
    component of [s], each node once. *)
Definition yields_component
    (comp : @Adj.t node → node → node → Prop)
    (adj : @Adj.t node) (s : node) : Prop :=
  (∃ out, TraversableDigraph.dfs adj (Some s) None = Some out ∧
          NoDup out ∧ ∀ x, x ∈ out ↔ comp adj s x) ∧
  (∃ out, TraversableDigraph.bfs adj (Some s) = Some out ∧
          NoDup out ∧ ∀ x, x ∈ out ↔ comp adj s x).

(** The reading of an absent start as a silent no-op: both traversals
    yield nothing. *)
Definition absent_start_yields_nothing
    (adj : @Adj.t node) (s : node) : Prop :=
  s ∉ Adj.keys adj →
  TraversableDigraph.dfs adj (Some s) None = Some [] ∧
  TraversableDigraph.bfs adj (Some s) = Some [].

(** [d] is the edge-distance of [x] from [s]: the length of a shortest
    directed path. *)
Definition dist adj s x (d : nat) : Prop :=
  nsteps (Adj.edge adj) d s x ∧ ∀ d', nsteps (Adj.edge adj) d' s x → d ≤ d'.

(** The state of the [while queue:] loop, with the distance [lev] of each
    marked node: the queue is sorted by distance and spans at most two
    consecutive distances; the marked nodes no longer queued have all
    their neighbours marked and are no farther than the queued ones. *)
Record layered adj s lev V (Q : list node) : Prop := {
  lay_start : s ∈ V;
  lay_dist : ∀ x, x ∈ V → dist adj s x (lev x);
  lay_queue : ∀ x, x ∈ Q → x ∈ V;
  lay_sorted : StronglySorted (λ x y, lev x ≤ lev y) Q;
  lay_span : ∀ x y, x ∈ Q → y ∈ Q → lev y ≤ S (lev x);
  lay_done : ∀ x, x ∈ V → x ∉ Q →
    (∀ y, Adj.edge adj x y → y ∈ V) ∧ (∀ q, q ∈ Q → lev x ≤ lev q)
}.

(** Executable checks of the two hypotheses of topological validity.
    Acyclicity is checked with the reachability search of the [DAG]
    class: no edge [u -> v] has a path back from [v] to [u]. *)
Definition acyclicb adj : bool :=
  forallb (λ u,
    forallb (λ v, bool_decide (DAG.has_path adj v u = Some false))
            (Adj.get adj u))
    (Adj.keys adj).

Definition wfb adj : bool :=
  bool_decide (NoDup (Adj.keys adj)) &&
  forallb (λ u,
    forallb (λ v, bool_decide (v ∈ Adj.keys adj)) (Adj.get adj u))
    (Adj.keys adj).
End vocabulary.

(** The dictionary after [add_edge(0, 1)] on a fresh graph. *)
Definition one_edge : @Adj.t nat := [(0, [1]); (1, [])].

(** The graph of the demo in the source, with numbers for the letters. *)
Definition diamond : @Adj.t nat := [(1, [2; 3]); (2, [4]); (3, [4]); (4, [])].

(** ** Further vocabulary *)

Section vocabulary_more.
Context {node : Type} `{Countable node}.
Implicit Types (adj : @Adj.t node) (s e n : node) (V : gset node).

(** An edge whose target lies outside the set [V]. *)
Definition edge_avoiding adj V : relation node :=
  λ a b, Adj.edge adj a b ∧ b ∉ V.

(** In the sequence [out], the element at index [j] is an out-neighbour of
    an element at a smaller index. *)
Definition has_earlier_parent adj (out : list node) (j : nat) (x : node)
    : Prop :=
  ∃ i y, i < j ∧ out !! i = Some y ∧ Adj.edge adj y x.
End vocabulary_more.

(** * Properties *)

Section adj_facts.
Context {node : Type} `{Countable node}.
Implicit Types (adj : @Adj.t node).

(** *** Lookup facts *)

Lemma lookup_is_Some adj k : is_Some (Adj.lookup adj k) ↔ k ∈ Adj.keys adj.
Proof.
  induction adj as [|[k' ns] adj IH]; simpl.
  - split; [intros [? [=]] | intros ?%elem_of_nil; done].
  - case_decide as Hk; subst.
    + split; [intros _; left | eauto].
    + rewrite IH, elem_of_cons. split; [by right | by intros [?|?]].
Qed.

Lemma lookup_None adj k : Adj.lookup adj k = None ↔ k ∉ Adj.keys adj.
Proof. rewrite <- lookup_is_Some, eq_None_not_Some. done. Qed.

Lemma get_absent adj k : k ∉ Adj.keys adj → Adj.get adj k = [].
Proof. intros ?%lookup_None. unfold Adj.get. by rewrite H0. Qed.

Lemma edge_key adj u v : Adj.edge adj u v → u ∈ Adj.keys adj.
Proof.
  unfold Adj.edge. intros Hv. destruct (decide (u ∈ Adj.keys adj)) as [|Hn]; [done|].
  rewrite (get_absent _ _ Hn) in Hv. by apply elem_of_nil in Hv.
Qed.

Lemma lookup_insert_new adj k w :
  k ∉ Adj.keys adj →
  Adj.lookup (Adj.insert_new adj k) w = if decide (k = w) then Some [] else Adj.lookup adj w.
Proof.
  unfold Adj.insert_new. induction adj as [|[k' ns] adj IH]; simpl; intros Hk.
  - done.
  - rewrite not_elem_of_cons in Hk. destruct Hk as [Hne Hk].
    rewrite (IH Hk). repeat case_decide; congruence.
Qed.

Lemma keys_insert_new adj k : Adj.keys (Adj.insert_new adj k) = Adj.keys adj ++ [k].
Proof. unfold Adj.keys, Adj.insert_new. by rewrite fmap_app. Qed.

Lemma append_Some adj u v :
  u ∈ Adj.keys adj → ∃ adj', Adj.append adj u v = Some adj'.
Proof.
  induction adj as [|[k ns] adj IH]; simpl.
  - intros ?%elem_of_nil; done.
  - intros Hu. case_decide; [eauto|].
    apply elem_of_cons in Hu as [->|Hu]; [done|].
    destruct (IH Hu) as [adj' ->]. simpl. eauto.
Qed.

Lemma append_keys adj u v adj' :
  Adj.append adj u v = Some adj' → Adj.keys adj' = Adj.keys adj.
Proof.
  revert adj'. induction adj as [|[k ns] adj IH]; simpl; intros adj' Ha.
  - done.
  - case_decide.
    + by injection Ha as <-.
    + destruct (Adj.append adj u v) as [a|] eqn:E; simplify_eq/=.
      f_equal. by apply IH.
Qed.

Lemma append_lookup adj u v adj' w :
  Adj.append adj u v = Some adj' →
  Adj.lookup adj' w =
    if decide (u = w) then Some (Adj.get adj u ++ [v]) else Adj.lookup adj w.
Proof.
  revert adj'. induction adj as [|[k ns] adj IH]; simpl; intros adj' Ha.
  - done.
  - case_decide as Hk.
    + injection Ha as <-. subst k. unfold Adj.get. simpl.
      rewrite (decide_True (P := u = u)) by done. simpl.
      repeat case_decide; congruence.
    + destruct (Adj.append adj u v) as [a|] eqn:E; simplify_eq/=.
      rewrite (IH a eq_refl). unfold Adj.get. simpl.
      rewrite (decide_False (P := k = u)) by done.
      repeat case_decide; congruence.
Qed.
End adj_facts.

(** ** Node and edge insertion *)

Section insertion.
Context {node : Type} `{Countable node}.
Implicit Types (adj : @Adj.t node) (u v w : node).

Lemma add_node_returns n adj :
  (SortableDigraph.add_node n adj).1 = Eff.Returns ().
Proof. unfold SortableDigraph.add_node. by case_decide. Qed.

Lemma add_node_lookup n adj w :
  Adj.lookup (SortableDigraph.add_node n adj).2 w =
    if decide (n = w) then Some (Adj.get adj n) else Adj.lookup adj w.
Proof.
  unfold SortableDigraph.add_node. case_decide as Hn; simpl.
  - case_decide; [subst w|done].
    apply lookup_is_Some in Hn as [ns Hns]. unfold Adj.get. by rewrite Hns.
  - rewrite lookup_insert_new by done. by rewrite (get_absent _ _ Hn).
Qed.

Lemma add_node_get n adj w :
  Adj.get (SortableDigraph.add_node n adj).2 w = Adj.get adj w.
Proof.
  unfold Adj.get at 1. rewrite add_node_lookup.
  case_decide; [by subst|done].
Qed.

Lemma add_node_keys n adj :
  Adj.keys (SortableDigraph.add_node n adj).2 =
    Adj.keys adj ++ (if decide (n ∈ Adj.keys adj) then [] else [n]).
Proof.
  unfold SortableDigraph.add_node. case_decide; simpl.
  - by rewrite app_nil_r.
  - apply keys_insert_new.
Qed.

Lemma add_node_key n adj : n ∈ Adj.keys (SortableDigraph.add_node n adj).2.
Proof.
  rewrite add_node_keys, elem_of_app. case_decide; [by left|right; left].
Qed.

Lemma add_node_keys_mono n adj w :
  w ∈ Adj.keys adj → w ∈ Adj.keys (SortableDigraph.add_node n adj).2.
Proof. rewrite add_node_keys, elem_of_app. by left. Qed.

(** [add_node] is idempotent, and a no-op on a present key. *)
Lemma add_node_present n adj :
  n ∈ Adj.keys adj → SortableDigraph.add_node n adj = (Eff.Returns (), adj).
Proof. intros Hn. unfold SortableDigraph.add_node. by rewrite decide_True. Qed.

Lemma add_node_idempotent n adj :
  SortableDigraph.add_node n (SortableDigraph.add_node n adj).2 =
  SortableDigraph.add_node n adj.
Proof.
  rewrite add_node_present by apply add_node_key.
  rewrite <- (add_node_returns n adj). by destruct (SortableDigraph.add_node n adj).
Qed.

(** What a base-class [add_edge] does, in one equation per observation. *)
Lemma add_edge_run u v adj :
  ∃ adj',
    SortableDigraph.add_edge u v adj = (Eff.Returns (), adj') ∧
    (∀ w, Adj.lookup adj' w =
            if decide (u = w) then Some (Adj.get adj u ++ [v])
            else if decide (v = w) then Some (Adj.get adj v)
            else Adj.lookup adj w) ∧
    Adj.keys adj' =
      Adj.keys (SortableDigraph.add_node v (SortableDigraph.add_node u adj).2).2.
Proof.
  unfold SortableDigraph.add_edge, Eff.bind.
  pose proof (add_node_returns u adj) as R1.
  destruct (SortableDigraph.add_node u adj) as [o1 adj1] eqn:E1.
  simpl in R1; subst o1.
  pose proof (add_node_returns v adj1) as R2.
  destruct (SortableDigraph.add_node v adj1) as [o2 adj2] eqn:E2.
  simpl in R2; subst o2.
  assert (u ∈ Adj.keys adj2) as Hu.
  { replace adj2 with (SortableDigraph.add_node v adj1).2 by by rewrite E2.
    apply add_node_keys_mono.
    replace adj1 with (SortableDigraph.add_node u adj).2 by by rewrite E1.
    apply add_node_key. }
  destruct (append_Some adj2 u v Hu) as [adj3 E3].
  exists adj3. unfold SortableDigraph.append_neighbor. rewrite E3.
  split; [done|]. split.
  - intros w. rewrite (append_lookup _ _ _ _ w E3).
    replace adj2 with (SortableDigraph.add_node v adj1).2 by by rewrite E2.
    replace adj1 with (SortableDigraph.add_node u adj).2 by by rewrite E1.
    rewrite add_node_get, add_node_get.
    case_decide; [done|]. rewrite add_node_lookup, add_node_get.
    case_decide; [done|]. rewrite add_node_lookup. by rewrite decide_False.
  - simpl. rewrite E2. apply (append_keys _ _ _ _ E3).
Qed.

Lemma add_edge_get u v adj w :
  Adj.get (SortableDigraph.add_edge u v adj).2 w =
    if decide (u = w) then Adj.get adj u ++ [v] else Adj.get adj w.
Proof.
  destruct (add_edge_run u v adj) as (adj' & -> & Hl & _). simpl.
  unfold Adj.get at 1. rewrite Hl.
  repeat case_decide; subst; done.
Qed.

Lemma add_edge_edge u v adj a b :
  Adj.edge (SortableDigraph.add_edge u v adj).2 a b ↔
    Adj.edge adj a b ∨ (a = u ∧ b = v).
Proof.
  unfold Adj.edge. rewrite add_edge_get. case_decide as Hu.
  - subst a. rewrite elem_of_app, list_elem_of_singleton. naive_solver.
  - naive_solver.
Qed.

Lemma add_edge_keys u v adj w :
  w ∈ Adj.keys (SortableDigraph.add_edge u v adj).2 ↔
    w ∈ Adj.keys adj ∨ w = u ∨ w = v.
Proof.
  destruct (add_edge_run u v adj) as (adj' & -> & _ & Hk). simpl.
  rewrite Hk, !add_node_keys, !elem_of_app.
  repeat case_decide; rewrite ?elem_of_nil, ?list_elem_of_singleton in *;
    set_solver.
Qed.

(** C6. The base-class [add_edge(u, v)] never raises; afterwards [u] and
    [v] are keys, [u]'s neighbour list is its old one (empty if [u] was
    absent) with [v] appended at the end, [v] (when different from [u])
    keeps its list or gets the empty one, and every other key is looked up
    as before. *)
Theorem add_edge_post adj u v :
  ∃ adj',
    SortableDigraph.add_edge u v adj = (Eff.Returns (), adj') ∧
    u ∈ Adj.keys adj' ∧ v ∈ Adj.keys adj' ∧
    Adj.lookup adj' u = Some (Adj.get adj u ++ [v]) ∧
    (v ≠ u → Adj.lookup adj' v = Some (Adj.get adj v)) ∧
    (∀ w, w ≠ u → w ≠ v → Adj.lookup adj' w = Adj.lookup adj w) ∧
    (∀ w, w ∈ Adj.keys adj → w ≠ u → Adj.lookup adj' w = Adj.lookup adj w).
Proof.
  destruct (add_edge_run u v adj) as (adj' & Hrun & Hl & Hk).
  exists adj'. split; [done|].
  assert (∀ w, is_Some (Adj.lookup adj' w) → w ∈ Adj.keys adj') as Hin
    by (intros w; apply lookup_is_Some).
  split; [|split; [|split; [|split; [|split]]]].
  - apply Hin. rewrite Hl, decide_True by done. eauto.
  - apply Hin. rewrite Hl. repeat case_decide; eauto; done.
  - by rewrite Hl, decide_True.
  - intros Hne. rewrite Hl, decide_False, decide_True by done. done.
  - intros w Hu Hv. by rewrite Hl, !decide_False.
  - intros w Hw Hu. rewrite Hl, decide_False by done.
    case_decide; [subst w|done].
    apply lookup_is_Some in Hw as [ns Hns]. unfold Adj.get. by rewrite Hns.
Qed.
End insertion.

(** ** The recursion budget *)

Section budget.
Context {node : Type} `{Countable node}.
Implicit Types (adj : @Adj.t node) (V : gset node).

Lemma size_list_to_set_le (l : list node) :
  size (list_to_set l : gset node) ≤ length l.
Proof.
  induction l as [|x l IH].
  - by rewrite list_to_set_nil, size_empty.
  - rewrite list_to_set_cons, size_union_alt, size_singleton. simpl.
    assert (size (list_to_set l ∖ {[x]}) ≤ size (list_to_set l : gset node))
    by (apply subseteq_size; set_solver). lia.
Qed.

Lemma universe_budget adj V :
  size (universe adj ∖ V) < SortableDigraph.budget adj.
Proof.
  unfold SortableDigraph.budget.
  pose proof (size_list_to_set_le (Adj.mentioned adj)).
  assert (size (universe adj ∖ V) ≤ size (universe adj))
    by (apply subseteq_size; set_solver). unfold universe in *. lia.
Qed.

Lemma key_universe adj k : k ∈ Adj.keys adj → k ∈ universe adj.
Proof.
  intros Hk. unfold universe, Adj.mentioned.
  rewrite elem_of_list_to_set, elem_of_app. by left.
Qed.

Lemma lookup_mentioned adj u ns v :
  Adj.lookup adj u = Some ns → v ∈ ns → v ∈ concat adj.*2.
Proof.
  induction adj as [|[k l] adj IH]; simpl; [done|].
  intros Hl Hv. rewrite elem_of_app. case_decide.
  - left. by simplify_eq.
  - right. by apply IH.
Qed.

Lemma edge_universe adj u v : Adj.edge adj u v → v ∈ universe adj.
Proof.
  unfold Adj.edge, Adj.get. intros Hv.
  destruct (Adj.lookup adj u) as [ns|] eqn:E; simpl in Hv.
  - unfold universe, Adj.mentioned.
    rewrite elem_of_list_to_set, elem_of_app. right.
    by eapply lookup_mentioned.
  - by apply elem_of_nil in Hv.
Qed.

Lemma get_outside_universe adj u : u ∉ universe adj → Adj.get adj u = [].
Proof. intros Hu. apply get_absent. intros ?%key_universe. done. Qed.

(** Marking a node of the universe that was not marked shrinks what is
    left to mark. *)
Lemma budget_step adj V n fuel :
  n ∈ universe adj → n ∉ V →
  size (universe adj ∖ V) < S fuel →
  size (universe adj ∖ ({[n]} ∪ V)) < fuel.
Proof.
  intros Hn HV Hlt.
  assert (size (universe adj ∖ ({[n]} ∪ V)) < size (universe adj ∖ V))
    by (apply subset_size, strict_spec; split; [set_solver|];
        intros Hs; specialize (Hs n); set_solver).
  lia.
Qed.

Lemma budget_mono adj V V' fuel :
  V ⊆ V' → size (universe adj ∖ V) < fuel → size (universe adj ∖ V') < fuel.
Proof.
  intros HV Hlt.
  assert (size (universe adj ∖ V') ≤ size (universe adj ∖ V))
    by (apply subseteq_size; set_solver). lia.
Qed.
End budget.

(** ** Reachability search: [DAG._has_path] *)

Section has_path.
Context {node : Type} `{Countable node}.
Implicit Types (adj : @Adj.t node) (V : gset node) (s e n : node).

Lemma searched_refl adj e V : searched adj e V V.
Proof. unfold searched. set_solver. Qed.

Lemma searched_trans adj e V1 V2 V3 :
  searched adj e V1 V2 → searched adj e V2 V3 → searched adj e V1 V3.
Proof.
  intros (S1 & E1 & C1) (S2 & E2 & C2). split; [set_solver|].
  split; [auto|]. intros x y Hx Hn He.
  destruct (decide (x ∈ V2)) as [Hin|Hout].
  - apply S2. by eapply C1.
  - by eapply C2.
Qed.

Lemma first_path_answer adj e s rec nbrs V r :
  (∀ n V r, rec n V = Some r → answer adj e n V r) →
  (∀ n, n ∈ nbrs → Adj.edge adj s n) →
  DAG.first_path rec nbrs V = Some r →
  if r.1 then Adj.path adj s e
  else (∀ n, n ∈ nbrs → n ∈ r.2) ∧ searched adj e V r.2.
Proof.
  intros Hrec. revert V. induction nbrs as [|n nbrs IH]; simpl; intros V Hnb Hr.
  - simplify_eq/=. split; [by intros ? ?%elem_of_nil|apply searched_refl].
  - assert (∀ n0, n0 ∈ nbrs → Adj.edge adj s n0) as Hnb'
      by (intros; apply Hnb; by right).
    case_decide as Hn.
    + specialize (IH V Hnb' Hr). destruct r as [[] V']; simpl in *; [done|].
      destruct IH as [Hin Hs]. split; [|done].
      intros n0 [->|?]%elem_of_cons; [|by apply Hin]. by apply Hs.
    + destruct (rec n V) as [[[] V1]|] eqn:E; [| |done].
      * simplify_eq/=. apply Hrec in E. simpl in E.
        eapply rtc_l; [|exact E]. apply Hnb. by left.
      * apply Hrec in E. destruct E as (_ & Hn1 & _ & Hs1). simpl in *.
        specialize (IH V1 Hnb' Hr). destruct r as [[] V']; simpl in *; [done|].
        destruct IH as [Hin Hs]. split; [|by eapply searched_trans].
        intros n0 [->|?]%elem_of_cons; [|by apply Hin]. by apply Hs.
Qed.

Lemma has_path_answer fuel adj e s V r :
  DAG._has_path fuel adj s e V = Some r → answer adj e s V r.
Proof.
  revert s V r. induction fuel as [|fuel IH]; simpl; intros s V r Hr; [done|].
  case_decide as Hse.
  - simplify_eq/=. unfold answer. simpl. apply rtc_refl.
  - eapply (first_path_answer adj e s) in Hr; [| |done].
    2:{ intros n V0 r0 Hn. by apply IH. }
    unfold answer. destruct r as [[] V']; simpl in *; [done|].
    destruct Hr as [Hin (S1 & E1 & C1)].
    split; [done|]. split; [set_solver|]. split; [apply Hin|].
    split; [set_solver|]. split; [set_solver|].
    intros x y Hx Hn He. destruct (decide (x = s)) as [->|Hxs].
    + by apply Hin.
    + eapply C1; [done| |done]. set_solver.
Qed.

(** *** Termination within the budget *)

Lemma first_path_total adj fuel rec nbrs V :
  (∀ n V r, rec n V = Some r → r.1 = false → V ⊆ r.2) →
  (∀ n V, n ∈ universe adj → n ∉ V →
          size (universe adj ∖ V) < fuel → is_Some (rec n V)) →
  (∀ n, n ∈ nbrs → n ∈ universe adj) →
  size (universe adj ∖ V) < fuel →
  is_Some (DAG.first_path rec nbrs V).
Proof.
  intros Hmono Hrec. revert V.
  induction nbrs as [|n nbrs IH]; simpl; intros V Hnb Hlt; [eauto|].
  assert (∀ n0, n0 ∈ nbrs → n0 ∈ universe adj) as Hnb'
    by (intros; apply Hnb; by right).
  case_decide as Hn; [by apply IH|].
  destruct (Hrec n V) as [[[] V1] E]; [apply Hnb; by left|done|done| |];
    rewrite E; [eauto|].
  apply IH; [done|]. eapply budget_mono; [|done].
  by apply (Hmono _ _ _ E).
Qed.

Lemma has_path_total fuel adj e s V :
  s ∉ V → size (universe adj ∖ V) < fuel →
  is_Some (DAG._has_path fuel adj s e V).
Proof.
  revert s V. induction fuel as [|fuel IH]; simpl; intros s V Hs Hlt; [lia|].
  case_decide as Hse; [eauto|].
  destruct (decide (s ∈ universe adj)) as [Hu|Hu].
  - apply (first_path_total adj fuel).
    + intros n V0 [[] V1] Hr; simpl; [done|]. intros _.
      apply has_path_answer in Hr. apply Hr.
    + intros n V0 Hn HV0 Hlt0. by apply IH.
    + intros n Hn. by eapply edge_universe.
    + by apply budget_step.
  - rewrite (get_outside_universe _ _ Hu). simpl. eauto.
Qed.

(** The search from an empty visited set decides reachability. *)
Lemma has_path_decides adj s e :
  ∃ b, DAG.has_path adj s e = Some b ∧ (b = true ↔ Adj.path adj s e).
Proof.
  unfold DAG.has_path.
  destruct (has_path_total (SortableDigraph.budget adj) adj e s ∅)
    as [[b V'] E]; [set_solver|apply universe_budget|].
  rewrite E. exists b. split; [done|].
  apply has_path_answer in E. unfold answer in E. destruct b; simpl in E.
  - done.
  - split; [done|]. intros Hp. exfalso.
    destruct E as (Hne & Hs & _ & _ & He & Hc).
    assert (e ∈ V') as He'; [|set_solver].
    clear Hne He. induction Hp as [x|x y z Hxy _ IHp]; [done|].
    apply IHp. eapply Hc; [done|set_solver|done].
Qed.

(** C4. [_has_path(start, end)] always returns, on cyclic dictionaries
    too; it returns [True] when [start == end], and in general returns
    [True] exactly when a directed path leads from [start] to [end]. *)
Theorem has_path_correct adj s e :
  ∃ b, DAG.has_path adj s e = Some b ∧
       (s = e → b = true) ∧
       (b = true ↔ Adj.path adj s e).
Proof.
  destruct (has_path_decides adj s e) as (b & Hb & Hiff).
  exists b. split; [done|]. split; [|done].
  intros ->. apply Hiff, rtc_refl.
Qed.
End has_path.

(** ** Cycle-safe insertion: [DAG.add_edge] *)

Section dag.
Context {node : Type} `{Countable node}.
Implicit Types (adj : @Adj.t node) (u v x : node).

(** The two ways a [DAG.add_edge] call can go. *)
Lemma dag_add_edge_cases u v adj :
  (Adj.path adj v u ∧
     DAG.add_edge u v adj = (Eff.Raises (Eff.ValueError u v), adj)) ∨
  (¬ Adj.path adj v u ∧
     DAG.add_edge u v adj = SortableDigraph.add_edge u v adj).
Proof.
  unfold DAG.add_edge, Eff.bind, Eff.query.
  destruct (has_path_decides adj v u) as (b & -> & Hiff).
  destruct b.
  - left. split; [by apply Hiff|done].
  - right. split; [|done]. intros Hp. by apply Hiff in Hp.
Qed.

Lemma tc_first_step (R : relation node) x z :
  tc R x z → ∃ y, R x y ∧ rtc R y z.
Proof.
  destruct 1 as [x z HR|x y z HR Ht].
  - exists z. split; [done|apply rtc_refl].
  - exists y. split; [done|by apply tc_rtc].
Qed.

(** A path through the dictionary with the new edge either avoids that
    edge altogether or splits around one use of it. *)
Lemma path_add_edge u v adj a b :
  Adj.path (SortableDigraph.add_edge u v adj).2 a b →
  Adj.path adj a b ∨ (Adj.path adj a u ∧ Adj.path adj v b).
Proof.
  unfold Adj.path. revert b.
  apply (rtc_ind_r (λ b, rtc (Adj.edge adj) a b ∨
                         (rtc (Adj.edge adj) a u ∧ rtc (Adj.edge adj) v b)));
    [left; apply rtc_refl|].
  intros b c _ Hbc IH.
  apply add_edge_edge in Hbc as [Hold|[-> ->]].
  - destruct IH as [IH|[IH1 IH2]].
    + left. by eapply rtc_r.
    + right. split; [done|by eapply rtc_r].
  - destruct IH as [IH|[IH1 IH2]].
    + right. split; [done|apply rtc_refl].
    + right. split; [done|apply rtc_refl].
Qed.

Lemma acyclic_add_node n adj :
  Adj.acyclic adj → Adj.acyclic (SortableDigraph.add_node n adj).2.
Proof.
  intros Hac x Hx. apply (Hac x).
  eapply tc_congruence with (f := id); [|exact Hx].
  intros a b. unfold Adj.edge. by rewrite add_node_get.
Qed.

Lemma acyclic_add_edge u v adj :
  Adj.acyclic adj → ¬ Adj.path adj v u →
  Adj.acyclic (SortableDigraph.add_edge u v adj).2.
Proof.
  intros Hac Hnp x Hx.
  apply tc_first_step in Hx as (y & Hxy & Hyx).
  apply add_edge_edge in Hxy. apply path_add_edge in Hyx.
  destruct Hxy as [Hxy|[-> ->]], Hyx as [Hyx|[Hyu Hvx]].
  - apply (Hac x). by eapply tc_rtc_r; [apply tc_once|].
  - apply Hnp. unfold Adj.path. etrans; [exact Hvx|]. by eapply rtc_l.
  - by apply Hnp.
  - by apply Hnp.
Qed.

Lemma acyclic_init : Adj.acyclic (SortableDigraph.init (node := node)).
Proof.
  intros x Hx. apply tc_first_step in Hx as (y & Hxy & _).
  by apply elem_of_nil in Hxy.
Qed.

(** The data-model invariant: distinct keys, every neighbour a key. *)
Lemma wf_init : Adj.wf (SortableDigraph.init (node := node)).
Proof.
  split; [constructor|]. intros u v Huv. by apply elem_of_nil in Huv.
Qed.

Lemma wf_add_node n adj :
  Adj.wf adj → Adj.wf (SortableDigraph.add_node n adj).2.
Proof.
  intros [Hnd Hcl]. split.
  - rewrite add_node_keys. case_decide; [by rewrite app_nil_r|].
    apply NoDup_app. split; [done|]. split; [|apply NoDup_singleton].
    intros x Hx ->%list_elem_of_singleton. done.
  - intros u v Huv. apply add_node_keys_mono, (Hcl u).
    unfold Adj.edge in *. by rewrite add_node_get in Huv.
Qed.

Lemma wf_add_edge u v adj :
  Adj.wf adj → Adj.wf (SortableDigraph.add_edge u v adj).2.
Proof.
  intros Hwf. split.
  - destruct (add_edge_run u v adj) as (adj' & -> & _ & Hk). simpl.
    rewrite Hk. by apply wf_add_node, wf_add_node.
  - intros a b Hab. apply add_edge_keys.
    apply add_edge_edge in Hab as [Hab|[-> ->]]; [|auto].
    left. by apply Hwf in Hab.
Qed.

Lemma reachable_wf adj : DAG.reachable adj → Adj.wf adj.
Proof.
  induction 1 as [|adj n _ IH|adj u v _ IH].
  - apply wf_init.
  - by apply wf_add_node.
  - destruct (dag_add_edge_cases u v adj) as [[_ ->]|[Hnp ->]]; [done|].
    by apply wf_add_edge.
Qed.

(** C1. Every dictionary a [DAG] object can hold, after any sequence of
    [add_node] and [add_edge] calls from the empty one and whether or not
    those [add_edge] calls raised, is free of directed cycles. *)
Theorem dag_invariant adj : DAG.reachable adj → Adj.acyclic adj.
Proof.
  induction 1 as [|adj n _ IH|adj u v _ IH].
  - apply acyclic_init.
  - by apply acyclic_add_node.
  - destruct (dag_add_edge_cases u v adj) as [[_ ->]|[Hnp ->]]; [done|].
    by apply acyclic_add_edge.
Qed.

(** C2. [DAG.add_edge(u, v)] raises exactly when a directed path from [v]
    to [u] exists; what it raises names the pair [(u, v)] and the
    dictionary is left as it was; otherwise the call is the base-class
    insertion. *)
Theorem dag_add_edge_spec adj u v :
  ((∃ e adj', DAG.add_edge u v adj = (Eff.Raises e, adj')) ↔
     Adj.path adj v u) ∧
  (∀ e adj', DAG.add_edge u v adj = (Eff.Raises e, adj') →
     e = Eff.ValueError u v ∧ adj' = adj) ∧
  (¬ Adj.path adj v u →
     DAG.add_edge u v adj = SortableDigraph.add_edge u v adj).
Proof.
  destruct (add_edge_run u v adj) as (adj1 & Hbase & _).
  destruct (dag_add_edge_cases u v adj) as [[Hp ->]|[Hnp ->]].
  - split; [|split].
    + split; [done|eauto].
    + by intros e adj' [= <- <-].
    + done.
  - rewrite Hbase. split; [|split].
    + split; [by intros (? & ? & [=])|done].
    + by intros e adj' [=].
    + done.
Qed.

(** C5. [DAG.add_edge(x, x)] raises the cycle error on every dictionary,
    the empty one included, and leaves the dictionary as it was. *)
Theorem dag_self_loop_rejected adj x :
  DAG.add_edge x x adj = (Eff.Raises (Eff.ValueError x x), adj).
Proof.
  destruct (dag_add_edge_cases x x adj) as [[_ ->]|[Hnp _]]; [done|].
  destruct Hnp. apply rtc_refl.
Qed.
End dag.

(** ** The states of a graph object are the well-formed dictionaries *)

Section states.
Context {node : Type} `{Countable node}.
Implicit Types (adj front back : @Adj.t node) (k u v : node).

Lemma base_reachable_wf adj : SortableDigraph.reachable adj → Adj.wf adj.
Proof.
  induction 1 as [|adj n _ IH|adj u v _ IH].
  - apply wf_init.
  - by apply wf_add_node.
  - by apply wf_add_edge.
Qed.

Lemma dag_reachable_base adj :
  DAG.reachable adj → SortableDigraph.reachable adj.
Proof.
  induction 1 as [|adj n _ IH|adj u v _ IH].
  - constructor.
  - by constructor.
  - destruct (dag_add_edge_cases u v adj) as [[_ ->]|[_ ->]]; [done|].
    by constructor.
Qed.

Lemma keys_blank (ks : list node) : Adj.keys (SortableDigraph.blank ks) = ks.
Proof.
  unfold Adj.keys, SortableDigraph.blank. rewrite <- list_fmap_compose.
  apply list_fmap_id.
Qed.

Lemma blank_reachable (ks : list node) :
  NoDup ks → SortableDigraph.reachable (SortableDigraph.blank ks).
Proof.
  induction ks as [|k ks IH] using rev_ind; intros Hnd; [constructor|].
  apply NoDup_app in Hnd as (Hnd & Hk & _).
  replace (SortableDigraph.blank (ks ++ [k]))
    with (SortableDigraph.add_node k (SortableDigraph.blank ks)).2.
  { constructor. by apply IH. }
  unfold SortableDigraph.add_node. rewrite decide_False.
  - unfold SortableDigraph.blank. by rewrite fmap_app.
  - rewrite keys_blank. intros Hin. apply (Hk k Hin). by left.
Qed.

Lemma append_at front k pre back v :
  k ∉ Adj.keys front →
  Adj.append (front ++ (k, pre) :: back) k v =
    Some (front ++ (k, pre ++ [v]) :: back).
Proof.
  induction front as [|[k' l'] front IH]; simpl; intros Hk.
  - by rewrite decide_True.
  - apply not_elem_of_cons in Hk as [Hne Hk].
    rewrite decide_False by done. by rewrite IH.
Qed.

(** Filling in one neighbour list, edge by edge. *)
Lemma fill_reachable front k pre more back :
  k ∉ Adj.keys front →
  (∀ v, v ∈ more → v ∈ Adj.keys (front ++ (k, pre) :: back)) →
  SortableDigraph.reachable (front ++ (k, pre) :: back) →
  SortableDigraph.reachable (front ++ (k, pre ++ more) :: back).
Proof.
  intros Hk. revert pre.
  induction more as [|v more IH]; intros pre Hin Hr;
    [by rewrite app_nil_r|].
  replace (pre ++ v :: more) with ((pre ++ [v]) ++ more)
    by by rewrite <- app_assoc.
  assert (∀ l, Adj.keys (front ++ (k, l) :: back)
               = Adj.keys (front ++ (k, pre) :: back)) as Hkeys
    by (intros; unfold Adj.keys; by rewrite !fmap_app).
  apply IH.
  - intros w Hw. rewrite Hkeys. apply Hin. by right.
  - replace (front ++ (k, pre ++ [v]) :: back)
      with (SortableDigraph.add_edge k v (front ++ (k, pre) :: back)).2;
      [by constructor|].
    unfold SortableDigraph.add_edge, Eff.bind.
    rewrite add_node_present.
    2:{ unfold Adj.keys. rewrite fmap_app, elem_of_app. right. by left. }
    rewrite add_node_present by (apply Hin; by left).
    unfold SortableDigraph.append_neighbor. by rewrite append_at.
Qed.

Lemma fill_all_reachable front back :
  NoDup (Adj.keys (front ++ back)) →
  (∀ k l v, (k, l) ∈ back → v ∈ l → v ∈ Adj.keys (front ++ back)) →
  SortableDigraph.reachable
    (front ++ SortableDigraph.blank (Adj.keys back)) →
  SortableDigraph.reachable (front ++ back).
Proof.
  revert front. induction back as [|[k l] back IH]; intros front Hnd Hcl Hr;
    [done|].
  assert (∀ l', Adj.keys ((front ++ [(k, l')]) ++ back)
                = Adj.keys (front ++ (k, l) :: back)) as Hkeys
    by (intros; unfold Adj.keys; by rewrite <- app_assoc, !fmap_app).
  replace (front ++ (k, l) :: back) with ((front ++ [(k, l)]) ++ back)
    by by rewrite <- app_assoc.
  apply IH.
  - by rewrite Hkeys.
  - intros k' l' v Hin Hv. rewrite Hkeys. eapply Hcl; [by right|done].
  - rewrite <- app_assoc. simpl.
    apply (fill_reachable front k [] l); [| |done].
    + unfold Adj.keys in Hnd. rewrite fmap_app in Hnd.
      apply NoDup_app in Hnd as (_ & Hk & _).
      intros Hin. apply (Hk k Hin). by left.
    + intros v Hv.
      replace (Adj.keys (front ++ (k, []) :: SortableDigraph.blank (Adj.keys back)))
        with (Adj.keys (front ++ (k, l) :: back)).
      * eapply Hcl; [by left|done].
      * unfold Adj.keys at 1 2. rewrite !fmap_app. simpl.
        f_equal. f_equal. symmetry. apply keys_blank.
Qed.

Lemma entry_lookup adj k l :
  NoDup (Adj.keys adj) → (k, l) ∈ adj → Adj.lookup adj k = Some l.
Proof.
  induction adj as [|[k' l'] adj IH]; simpl;
    [by intros _ ?%elem_of_nil|].
  intros [Hk Hnd]%NoDup_cons Hin.
  apply elem_of_cons in Hin as [[= <- <-]|Hin]; [by rewrite decide_True|].
  rewrite decide_False; [by apply IH|].
  intros ->. apply Hk. unfold Adj.keys.
  apply list_elem_of_fmap. by exists (k, l).
Qed.

(** Every well-formed dictionary is the state of some graph object, and
    conversely. *)
Lemma wf_iff_reachable adj : Adj.wf adj ↔ SortableDigraph.reachable adj.
Proof.
  split; [|apply base_reachable_wf]. intros [Hnd Hcl].
  apply (fill_all_reachable []); simpl; [done| |by apply blank_reachable].
  intros k l v Hin Hv. apply (Hcl k). unfold Adj.edge, Adj.get.
  by rewrite (entry_lookup _ _ _ Hnd Hin).
Qed.
End states.

(** ** The executable checks are sound *)

Section checks.
Context {node : Type} `{Countable node}.
Implicit Types (adj : @Adj.t node).

Lemma forallb_elem_of {X} (f : X → bool) (l : list X) x :
  forallb f l = true → x ∈ l → f x = true.
Proof.
  intros Hf Hx. rewrite forallb_forall in Hf. by apply Hf, list_elem_of_In.
Qed.

Lemma acyclicb_sound adj : acyclicb adj = true → Adj.acyclic adj.
Proof.
  intros Hb x Hx. apply tc_first_step in Hx as (y & Hxy & Hyx).
  pose proof (forallb_elem_of _ _ x Hb (edge_key _ _ _ Hxy)) as Hx.
  pose proof (forallb_elem_of _ _ y Hx Hxy) as Hy. simpl in Hy.
  apply bool_decide_eq_true in Hy.
  destruct (has_path_decides adj y x) as (b & Hp & Hiff).
  apply Hiff in Hyx. congruence.
Qed.

Lemma wfb_sound adj : wfb adj = true → Adj.wf adj.
Proof.
  unfold wfb. intros [Hnd Hcl]%andb_true_iff. split.
  - by apply bool_decide_eq_true in Hnd.
  - intros u v Huv.
    pose proof (forallb_elem_of _ _ u Hcl (edge_key _ _ _ Huv)) as Hu.
    pose proof (forallb_elem_of _ _ v Hu Huv) as Hv. simpl in Hv.
    by apply bool_decide_eq_true in Hv.
Qed.
End checks.

(** ** Topological sort: [SortableDigraph.topsort] *)

Section topsort.
Context {node : Type} `{Countable node}.
Implicit Types (adj : @Adj.t node) (n : node).
Implicit Types (st : gset node * list node).

Lemma extends_refl st : extends st st.
Proof.
  exists []. rewrite app_nil_r. split; [done|]. split; [set_solver|].
  split; [constructor|]. by intros ? ?%elem_of_nil.
Qed.

Lemma extends_trans st1 st2 st3 :
  extends st1 st2 → extends st2 st3 → extends st1 st3.
Proof.
  intros (n1 & R1 & V1 & D1 & F1) (n2 & R2 & V2 & D2 & F2).
  exists (n1 ++ n2). split; [by rewrite R2, R1, app_assoc|].
  split; [rewrite V2, V1, list_to_set_app_L; set_solver|].
  split.
  - apply NoDup_app. split; [done|]. split; [|done].
    intros x Hx1 Hx2. apply (F2 x Hx2). rewrite V1. set_solver.
  - intros x [Hx|Hx]%elem_of_app; [by apply F1|].
    intros Hin. apply (F2 x Hx). rewrite V1. set_solver.
Qed.

Lemma extends_subseteq st st' : extends st st' → st.1 ⊆ st'.1.
Proof. intros (new & _ & -> & _). set_solver. Qed.

Lemma extends_result st st' x : extends st st' → x ∈ st.2 → x ∈ st'.2.
Proof. intros (new & -> & _) Hx. rewrite elem_of_app. by left. Qed.

(** The nodes marked but not yet in the list stay the same. *)
Lemma extends_pending st st' x :
  extends st st' → x ∈ st'.1 → x ∉ st'.2 → x ∈ st.1 ∧ x ∉ st.2.
Proof.
  intros (new & -> & -> & _). rewrite elem_of_app. set_solver.
Qed.

Lemma extends_covered st st' :
  extends st st' → list_to_set st.2 ⊆ st.1 → list_to_set st'.2 ⊆ st'.1.
Proof. intros (new & -> & -> & _). rewrite list_to_set_app_L. set_solver. Qed.

Lemma for_each_visit_extends fuel adj l st st' :
  (∀ n st st', SortableDigraph.visit fuel adj n st = Some st' →
               extends st st' ∧ n ∈ st'.1) →
  SortableDigraph.for_each (SortableDigraph.visit fuel adj) l st = Some st' →
  extends st st' ∧ ∀ x, x ∈ l → x ∈ st'.1.
Proof.
  intros Hv. revert st. induction l as [|n l IH]; simpl; intros st Hl.
  - simplify_eq. split; [apply extends_refl|by intros ? ?%elem_of_nil].
  - destruct (SortableDigraph.visit fuel adj n st) as [st1|] eqn:E;
      simpl in Hl; [|done].
    apply Hv in E as [E1 Hn]. apply IH in Hl as [E2 Hin].
    split; [by eapply extends_trans|].
    intros x [->|Hx]%elem_of_cons; [|by apply Hin].
    by apply (extends_subseteq _ _ E2).
Qed.

Lemma visit_extends fuel adj n st st' :
  SortableDigraph.visit fuel adj n st = Some st' →
  extends st st' ∧ n ∈ st'.1.
Proof.
  revert n st st'. induction fuel as [|fuel IH]; simpl; intros n st st' Hv;
    [done|].
  case_decide as Hn.
  - simplify_eq. split; [apply extends_refl|done].
  - destruct (SortableDigraph.for_each _ _ _) as [st2|] eqn:E;
      simpl in Hv; [|done].
    simplify_eq. apply (for_each_visit_extends _ _ _ _ _ IH) in E.
    destruct E as [(new & R2 & V2 & D2 & F2) _]. simpl in *.
    split; [|rewrite V2; set_solver].
    exists (new ++ [n]). simpl. split; [by rewrite R2, app_assoc|].
    split; [rewrite V2, list_to_set_app_L; set_solver|].
    split.
    + apply NoDup_app. split; [done|]. split; [|apply NoDup_singleton].
      intros x Hx ->%list_elem_of_singleton. apply (F2 _ Hx). set_solver.
    + intros x [Hx| ->%list_elem_of_singleton]%elem_of_app; [|done].
      intros Hin. apply (F2 _ Hx). set_solver.
Qed.

(** *** Termination within the budget *)

Lemma for_each_visit_total fuel adj l st :
  (∀ n st, n ∈ universe adj →
           size (universe adj ∖ st.1) < fuel →
           is_Some (SortableDigraph.visit fuel adj n st)) →
  (∀ n, n ∈ l → n ∈ universe adj) →
  size (universe adj ∖ st.1) < fuel →
  is_Some (SortableDigraph.for_each (SortableDigraph.visit fuel adj) l st).
Proof.
  intros Hv. revert st. induction l as [|n l IH]; simpl; intros st Hl Hlt;
    [eauto|].
  destruct (Hv n st) as [st1 E]; [apply Hl; by left|done|].
  rewrite E. simpl. apply IH; [intros; apply Hl; by right|].
  eapply budget_mono; [|done].
  apply extends_subseteq. by apply visit_extends in E as [? _].
Qed.

Lemma visit_total fuel adj n st :
  n ∈ universe adj → size (universe adj ∖ st.1) < fuel →
  is_Some (SortableDigraph.visit fuel adj n st).
Proof.
  revert n st. induction fuel as [|fuel IH]; simpl; intros n st Hn Hlt; [lia|].
  case_decide as Hin; [eauto|].
  destruct (for_each_visit_total fuel adj (Adj.get adj n)
              ({[n]} ∪ st.1, st.2)) as [st2 E].
  - intros. by apply IH.
  - intros m Hm. by eapply edge_universe.
  - simpl. by apply budget_step.
  - rewrite E. simpl. eauto.
Qed.

(** The run of [topsort]: it returns the reversal of a duplicate-free
    list whose elements are exactly the nodes the walk marked, all keys
    among them. *)
Lemma topsort_run adj :
  ∃ st, SortableDigraph.for_each
          (SortableDigraph.visit (SortableDigraph.budget adj) adj)
          (Adj.keys adj) (∅, []) = Some st ∧
        SortableDigraph.topsort adj = Some (reverse st.2) ∧
        NoDup st.2 ∧ st.1 = list_to_set st.2 ∧
        ∀ k, k ∈ Adj.keys adj → k ∈ st.2.
Proof.
  destruct (for_each_visit_total (SortableDigraph.budget adj) adj
              (Adj.keys adj) (∅, [])) as [st E].
  - intros. by apply visit_total.
  - apply key_universe.
  - apply universe_budget.
  - exists st. split; [done|]. unfold SortableDigraph.topsort. rewrite E.
    split; [done|].
    apply for_each_visit_extends in E; [|apply visit_extends].
    destruct E as [(new & R & V & D & _) Hk]. simpl in *. subst.
    split; [done|]. split; [set_solver|].
    intros k Hin. apply Hk in Hin. rewrite V in Hin. set_solver.
Qed.

(** C10. [topsort()] returns on every dictionary, cyclic or not, and
    the sequence it returns has no repeated element and contains every
    key. *)
Theorem topsort_total adj :
  ∃ out, SortableDigraph.topsort adj = Some out ∧
         NoDup out ∧ ∀ k, k ∈ Adj.keys adj → k ∈ out.
Proof.
  destruct (topsort_run adj) as (st & _ & Ht & Hnd & _ & Hk).
  exists (reverse st.2). split; [done|].
  split; [by rewrite reverse_Permutation|].
  intros k Hin. by apply elem_of_reverse, Hk.
Qed.
End topsort.

Section topsort_order.
Context {node : Type} `{Countable node}.
Implicit Types (adj : @Adj.t node) (n : node).
Implicit Types (st : gset node * list node).

Lemma ordered_nil adj : ordered adj [].
Proof. intros i x y Hi. by rewrite lookup_nil in Hi. Qed.

Lemma ordered_snoc adj R n :
  ordered adj R → (∀ y, Adj.edge adj n y → y ∈ R) → ordered adj (R ++ [n]).
Proof.
  intros Ho Hn i x y Hi Hxy.
  apply lookup_snoc_Some in Hi as [[Hlt Hi]|[-> ->]].
  - destruct (Ho i x y Hi Hxy) as (j & Hj & Hy).
    exists j. split; [done|]. by apply lookup_app_l_Some.
  - apply Hn, list_elem_of_lookup in Hxy as [j Hj].
    exists j. split; [by eapply lookup_lt_Some|by apply lookup_app_l_Some].
Qed.

Lemma for_each_visit_ordered fuel adj l st st' :
  (∀ n st st', SortableDigraph.visit fuel adj n st = Some st' →
     list_to_set st.2 ⊆ st.1 → pending_reach adj st [n] →
     ordered adj st.2 → ordered adj st'.2 ∧ n ∈ st'.2) →
  SortableDigraph.for_each (SortableDigraph.visit fuel adj) l st = Some st' →
  list_to_set st.2 ⊆ st.1 → pending_reach adj st l →
  ordered adj st.2 → ordered adj st'.2 ∧ ∀ m, m ∈ l → m ∈ st'.2.
Proof.
  intros Hv. revert st. induction l as [|n l IH]; simpl; intros st Hl Hc Hp Ho.
  - simplify_eq. split; [done|by intros ? ?%elem_of_nil].
  - destruct (SortableDigraph.visit fuel adj n st) as [st1|] eqn:E;
      simpl in Hl; [|done].
    pose proof (visit_extends _ _ _ _ _ E) as [Hext _].
    apply Hv in E as [Ho1 Hn1]; [|done| |done].
    2:{ intros g m Hg1 Hg2 ->%list_elem_of_singleton.
        apply Hp; [done|done|by left]. }
    pose proof Hl as Hl'.
    apply for_each_visit_extends in Hl' as [Hext' _]; [|apply visit_extends].
    apply IH in Hl as [Ho2 Hin]; [|by eapply extends_covered| |done].
    2:{ intros g m Hg1 Hg2 Hm.
        destruct (extends_pending _ _ _ Hext Hg1 Hg2).
        apply Hp; [done|done|by right]. }
    split; [done|].
    intros m [->|Hm]%elem_of_cons; [|by apply Hin].
    by eapply extends_result.
Qed.

Lemma visit_ordered fuel adj n st st' :
  Adj.acyclic adj →
  SortableDigraph.visit fuel adj n st = Some st' →
  list_to_set st.2 ⊆ st.1 → pending_reach adj st [n] →
  ordered adj st.2 → ordered adj st'.2 ∧ n ∈ st'.2.
Proof.
  intros Hac. revert n st st'.
  induction fuel as [|fuel IH]; simpl; intros n st st' Hv Hc Hp Ho; [done|].
  case_decide as Hn.
  - simplify_eq. split; [done|].
    destruct (decide (n ∈ st'.2)) as [|Hout]; [done|].
    destruct (Hac n). apply Hp; [done|done|by left].
  - destruct (SortableDigraph.for_each _ _ _) as [st2|] eqn:E;
      simpl in Hv; [|done].
    simplify_eq. simpl.
    apply (for_each_visit_ordered _ _ _ _ _ IH) in E as [Ho2 Hin];
      simpl; [|set_solver| |done].
    + split; [|rewrite elem_of_app; right; by left].
      by apply ordered_snoc.
    + intros g m Hg1 Hg2 Hm. simpl in *.
      eapply tc_rtc_l; [|apply tc_once, Hm].
      apply elem_of_union in Hg1 as [->%elem_of_singleton|Hg1];
        [apply rtc_refl|].
      apply tc_rtc, Hp; [done|done|by left].
Qed.

(** *** The walk stays inside the dictionary *)

Lemma for_each_visit_within fuel adj l st st' :
  SortableDigraph.for_each (SortableDigraph.visit fuel adj) l st = Some st' →
  (∀ k, k ∈ l → k ∈ universe adj) →
  st.1 ⊆ universe adj → st'.1 ⊆ universe adj.
Proof.
  revert l st st'. induction fuel as [|fuel IHf]; intros l;
    induction l as [|k l IHl]; simpl; intros st st' Hl Hks Hst;
    simplify_eq; try done.
  assert (∀ k0, k0 ∈ l → k0 ∈ universe adj) as Hks'
    by (intros; apply Hks; by right).
  destruct (decide (k ∈ st.1)) as [Hin|Hout].
  - simpl in Hl. by eapply IHl.
  - destruct (SortableDigraph.for_each _ (Adj.get adj k) _)
      as [st2|] eqn:E; simpl in Hl; [|done].
    eapply IHl; [done|done|]. simpl.
    eapply IHf; [exact E| |].
    + intros m Hm. by eapply edge_universe.
    + simpl. assert (k ∈ universe adj) by (apply Hks; by left).
      set_solver.
Qed.

Lemma listed_neighbor adj x :
  NoDup (Adj.keys adj) → x ∈ concat adj.*2 → ∃ u, Adj.edge adj u x.
Proof.
  unfold Adj.edge, Adj.get.
  induction adj as [|[k l] adj IH]; simpl; [by intros _ ?%elem_of_nil|].
  intros [Hk Hnd]%NoDup_cons [Hx|Hx]%elem_of_app.
  - exists k. by rewrite decide_True.
  - destruct (IH Hnd Hx) as [u Hu]. exists u.
    rewrite decide_False; [done|]. intros ->. apply Hk.
    by apply (edge_key adj u x).
Qed.

(** On a well-formed dictionary the keys are all the nodes there are. *)
Lemma universe_keys adj x : Adj.wf adj → x ∈ universe adj → x ∈ Adj.keys adj.
Proof.
  intros [Hnd Hcl] Hx. unfold universe, Adj.mentioned in Hx.
  apply elem_of_list_to_set, elem_of_app in Hx as [Hx|Hx]; [done|].
  destruct (listed_neighbor adj x Hnd Hx) as [u Hu]. by apply (Hcl u).
Qed.

(** C3. On every acyclic graph, that is, every acyclic dictionary a
    graph object can hold ([Adj.wf]), [topsort()] returns a permutation
    of the keys (so of the same length, every node once), and for every
    edge [u -> v] the node [u] stands at a smaller index than [v]. *)
Theorem topsort_valid adj :
  Adj.wf adj → Adj.acyclic adj →
  ∃ out, SortableDigraph.topsort adj = Some out ∧
         out ≡ₚ Adj.keys adj ∧
         length out = length (Adj.keys adj) ∧
         ∀ u v, Adj.edge adj u v →
                ∃ i j, out !! i = Some u ∧ out !! j = Some v ∧ i < j.
Proof.
  intros Hwf Hac. pose proof Hwf as [Hnd Hcl].
  destruct (topsort_run adj) as (st & Hrun & Ht & Hnd' & HV & Hk).
  exists (reverse st.2). split; [done|].
  assert (reverse st.2 ≡ₚ Adj.keys adj) as Hperm.
  { rewrite reverse_Permutation. apply NoDup_Permutation; [done|done|].
    intros x. split; [|apply Hk]. intros Hx.
    apply universe_keys; [done|].
    eapply (for_each_visit_within _ _ _ (∅, [])); [exact Hrun| | |].
    - apply key_universe.
    - set_solver.
    - rewrite HV. set_solver. }
  split; [done|]. split; [by rewrite Hperm|].
  intros u v Huv.
  assert (ordered adj st.2 ∧ ∀ m, m ∈ Adj.keys adj → m ∈ st.2) as [Ho _].
  { eapply (for_each_visit_ordered _ _ _ (∅, [])); [|exact Hrun| | |].
    - intros. by eapply visit_ordered.
    - set_solver.
    - intros g m Hg. set_solver.
    - apply ordered_nil. }
  assert (u ∈ st.2) as [i Hi]%list_elem_of_lookup
    by (by eapply Hk, edge_key).
  destruct (Ho i u v Hi Huv) as (j & Hji & Hj).
  pose proof (lookup_lt_Some _ _ _ Hi) as Hlen.
  exists (length st.2 - S i), (length st.2 - S j).
  split; [|split; [|lia]].
  - apply reverse_lookup_Some. split; [|lia].
    by replace (length st.2 - S (length st.2 - S i)) with i by lia.
  - apply reverse_lookup_Some. split; [|lia].
    by replace (length st.2 - S (length st.2 - S j)) with j by lia.
Qed.
End topsort_order.

(** ** Depth-first traversal: [TraversableDigraph.dfs] *)

Section dfs.
Context {node : Type} `{Countable node}.
Implicit Types (adj : @Adj.t node) (s n : node).
Implicit Types (st : gset node * list node).

Lemma explored_refl adj l st : explored adj l st st.
Proof. split; [apply extends_refl|]. split; intros; done. Qed.

Lemma explored_trans adj l1 l2 l st1 st2 st3 :
  l1 ⊆ l → l2 ⊆ l →
  explored adj l1 st1 st2 → explored adj l2 st2 st3 →
  explored adj l st1 st3.
Proof.
  intros Hl1 Hl2 (E1 & C1 & P1) (E2 & C2 & P2).
  pose proof (extends_subseteq _ _ E1). pose proof (extends_subseteq _ _ E2).
  split; [by eapply extends_trans|]. split.
  - intros x y Hx Hn Hxy. destruct (decide (x ∈ st2.1)).
    + apply H1. by eapply C1.
    + by eapply C2.
  - intros x Hx Hn. destruct (decide (x ∈ st2.1)).
    + destruct (P1 x) as (m & Hm & Hp); [done|done|]. exists m. auto.
    + destruct (P2 x) as (m & Hm & Hp); [done|done|]. exists m. auto.
Qed.

Lemma for_each_dfs_explored fuel adj l st st' :
  (∀ n st st', TraversableDigraph.dfs_from fuel adj n st = Some st' →
               explored adj [n] st st' ∧ n ∈ st'.1) →
  SortableDigraph.for_each (dfs_body fuel adj) l st = Some st' →
  explored adj l st st' ∧ ∀ m, m ∈ l → m ∈ st'.1.
Proof.
  intros Hd. revert st. induction l as [|n l IH]; simpl; intros st Hl.
  - simplify_eq. split; [apply explored_refl|by intros ? ?%elem_of_nil].
  - destruct (dfs_body fuel adj n st) as [st1|] eqn:E; simpl in Hl; [|done].
    assert (explored adj [n] st st1 ∧ n ∈ st1.1) as [E1 Hn].
    { unfold dfs_body in E. case_decide.
      - simplify_eq. split; [apply explored_refl|done].
      - by apply Hd. }
    apply IH in Hl as [E2 Hin]. split.
    + eapply explored_trans; [| |exact E1|exact E2]; set_solver.
    + intros m [->|Hm]%elem_of_cons; [|by apply Hin].
      destruct E2 as [E2 _]. by apply (extends_subseteq _ _ E2).
Qed.

Lemma dfs_from_explored fuel adj n st st' :
  TraversableDigraph.dfs_from fuel adj n st = Some st' →
  explored adj [n] st st' ∧ n ∈ st'.1.
Proof.
  revert n st st'. induction fuel as [|fuel IH]; simpl; intros n st st' Hd;
    [done|].
  case_decide as Hn.
  - simplify_eq. split; [apply explored_refl|done].
  - apply (for_each_dfs_explored _ _ _ _ _ IH) in Hd.
    destruct Hd as [((new & R & V & D & F) & C & P) Hin]. simpl in *.
    split; [|rewrite V; set_solver]. split; [|split].
    + exists (n :: new). split; [by rewrite R, <- app_assoc|].
      split; [rewrite V; set_solver|]. split.
      * apply NoDup_cons. split; [|done]. intros Hx. apply (F _ Hx). set_solver.
      * intros x [->|Hx]%elem_of_cons; [done|].
        intros Hxs. apply (F _ Hx). set_solver.
    + intros x y Hx Hxn Hxy. destruct (decide (x = n)) as [->|Hne].
      * by apply Hin.
      * eapply C; [done|set_solver|done].
    + intros x Hx Hxn. exists n. split; [by left|].
      destruct (decide (x = n)) as [->|Hne]; [apply rtc_refl|].
      destruct (P x) as (m & Hm & Hp); [done|set_solver|].
      by eapply rtc_l.
Qed.

Lemma for_each_dfs_total fuel adj l st :
  (∀ n st, size (universe adj ∖ st.1) < fuel →
           is_Some (TraversableDigraph.dfs_from fuel adj n st)) →
  size (universe adj ∖ st.1) < fuel →
  is_Some (SortableDigraph.for_each (dfs_body fuel adj) l st).
Proof.
  intros Hd. revert st. induction l as [|n l IH]; simpl; intros st Hlt; [eauto|].
  assert (∃ st1, dfs_body fuel adj n st = Some st1 ∧ st.1 ⊆ st1.1)
    as (st1 & E & Hsub).
  { unfold dfs_body. case_decide; [eauto|].
    destruct (Hd n st Hlt) as [st1 E]. exists st1. split; [done|].
    apply dfs_from_explored in E as [[E _] _]. by apply extends_subseteq. }
  rewrite E. simpl. apply IH. by eapply budget_mono.
Qed.

Lemma dfs_from_total fuel adj n st :
  size (universe adj ∖ st.1) < fuel →
  is_Some (TraversableDigraph.dfs_from fuel adj n st).
Proof.
  revert n st. induction fuel as [|fuel IH]; simpl; intros n st Hlt; [lia|].
  case_decide as Hin; [eauto|].
  destruct (decide (n ∈ universe adj)) as [Hu|Hu].
  - apply (for_each_dfs_total fuel adj); [done|]. simpl. by apply budget_step.
  - rewrite (get_outside_universe _ _ Hu). simpl. eauto.
Qed.

(** [dfs(s)] yields, without repetition, exactly the nodes reachable
    from [s]. *)
Lemma dfs_reachable adj s :
  ∃ out, TraversableDigraph.dfs adj (Some s) None = Some out ∧
         NoDup out ∧ ∀ x, x ∈ out ↔ Adj.path adj s x.
Proof.
  unfold TraversableDigraph.dfs.
  cbn -[TraversableDigraph.dfs_from SortableDigraph.budget].
  destruct (dfs_from_total (SortableDigraph.budget adj) adj s (∅, []))
    as [st E]; [apply universe_budget|].
  rewrite E. simpl. exists st.2. split; [done|].
  apply dfs_from_explored in E as [((new & R & V & D & F) & C & P) Hs].
  simpl in *. rewrite R. split; [done|].
  assert (∀ x, x ∈ new ↔ x ∈ st.1) as Hnew by (rewrite V; set_solver).
  intros x. split.
  - intros Hx. destruct (P x) as (m & ->%list_elem_of_singleton & Hp);
      [by apply Hnew|set_solver|done].
  - intros Hp. apply Hnew. clear P.
    induction Hp as [|a b c Hab _ IHp]; [done|].
    apply IHp. eapply C; [done|set_solver|done].
Qed.
End dfs.

(** ** Breadth-first traversal: [TraversableDigraph.bfs] *)

Section bfs.
Context {node : Type} `{Countable node}.
Implicit Types (adj : @Adj.t node) (s n : node) (V : gset node).
Implicit Types (st : gset node * list node).

(** The inner loop marks and enqueues, once each and in order, the
    neighbours that were not marked. *)
Lemma enqueue_spec nbrs st :
  extends st (TraversableDigraph.enqueue nbrs st) ∧
  (∀ x, x ∈ (TraversableDigraph.enqueue nbrs st).1 → x ∉ st.1 → x ∈ nbrs) ∧
  (∀ x, x ∈ nbrs → x ∈ (TraversableDigraph.enqueue nbrs st).1).
Proof.
  unfold TraversableDigraph.enqueue.
  revert st. induction nbrs as [|n nbrs IH]; simpl; intros st.
  - split; [apply extends_refl|]. split; [done|by intros ? ?%elem_of_nil].
  - match goal with |- context [foldl ?f ?a nbrs] =>
      specialize (IH a); set (st' := foldl f a nbrs) in * end.
    destruct IH as (E & N & A).
    assert (extends st (if decide (n ∈ st.1) then st
                        else ({[n]} ∪ st.1, st.2 ++ [n]))) as E0.
    { case_decide; [apply extends_refl|].
      exists [n]. simpl. split; [done|]. split; [set_solver|].
      split; [apply NoDup_singleton|].
      by intros x ->%list_elem_of_singleton. }
    pose proof (extends_subseteq _ _ E) as Hsub.
    split; [by eapply extends_trans|]. split.
    + intros x Hx Hn. destruct (decide (x = n)) as [->|Hne]; [by left|].
      right. apply N; [done|]. case_decide; simpl; set_solver.
    + intros x [->|Hx]%elem_of_cons; [|by apply A].
      apply Hsub. case_decide; simpl; set_solver.
Qed.

Lemma bfs_loop_explored fuel adj V Q out :
  TraversableDigraph.bfs_loop fuel adj V Q = Some out →
  list_to_set Q ⊆ V → NoDup Q →
  NoDup out ∧
  (∀ x, x ∈ Q → x ∈ out) ∧
  (∀ x, x ∈ out → x ∈ Q ∨ x ∉ V) ∧
  (∀ x y, x ∈ out → Adj.edge adj x y → y ∈ V ∨ y ∈ out) ∧
  (∀ x, x ∈ out → ∃ q, q ∈ Q ∧ Adj.path adj q x).
Proof.
  revert V Q out. induction fuel as [|fuel IH]; intros V [|n Q] out; simpl;
    intros Hb HQ HD; simplify_eq;
    try (split; [constructor|]; repeat split; intros *;
         by intros ?%elem_of_nil).
  destruct (enqueue_spec (Adj.get adj n) (V, Q))
    as ((news & R1 & V1 & D1 & F1) & N1 & A1).
  set (st1 := TraversableDigraph.enqueue (Adj.get adj n) (V, Q)) in *.
  simpl in *.
  destruct (TraversableDigraph.bfs_loop fuel adj st1.1 st1.2) as [out1|] eqn:E;
    simpl in Hb; [|done].
  simplify_eq. apply NoDup_cons in HD as [HnQ HD].
  apply IH in E as (ND & IQ & OQ & C & P).
  2:{ rewrite R1, V1, list_to_set_app_L. set_solver. }
  2:{ rewrite R1. apply NoDup_app. split; [done|]. split; [|done].
      intros x Hx Hx'. apply (F1 x Hx'). set_solver. }
  assert (n ∈ V) as HnV by set_solver.
  assert (∀ x, x ∈ st1.2 ↔ x ∈ Q ∨ x ∈ news) as HQ1
    by (intros; rewrite R1; apply elem_of_app).
  assert (∀ x, x ∈ st1.1 ↔ x ∈ V ∨ x ∈ news) as HV1
    by (intros; rewrite V1; set_solver).
  split; [|split; [|split; [|split]]].
  - apply NoDup_cons. split; [|done]. intros Hn.
    apply OQ in Hn as [Hn|Hn].
    + apply HQ1 in Hn as [Hn|Hn]; [done|]. by apply (F1 n).
    + apply Hn, HV1. by left.
  - intros x [->|Hx]%elem_of_cons; [by left|]. right. apply IQ, HQ1. by left.
  - intros x [->|Hx]%elem_of_cons; [left; by left|].
    apply OQ in Hx as [Hx|Hx].
    + apply HQ1 in Hx as [Hx|Hx]; [left; by right|]. right. by apply F1.
    + right. intros Hx'. apply Hx, HV1. by left.
  - intros x y [->|Hx]%elem_of_cons Hxy.
    + apply A1, HV1 in Hxy as [Hy|Hy]; [by left|].
      right. right. apply IQ, HQ1. by right.
    + destruct (C x y Hx Hxy) as [Hy|Hy]; [|right; by right].
      apply HV1 in Hy as [Hy|Hy]; [by left|].
      right. right. apply IQ, HQ1. by right.
  - intros x [->|Hx]%elem_of_cons.
    + exists n. split; [by left|apply rtc_refl].
    + destruct (P x Hx) as (q & Hq & Hp).
      apply HQ1 in Hq as [Hq|Hq]; [exists q; split; [by right|done]|].
      exists n. split; [by left|]. eapply rtc_l; [|exact Hp].
      apply N1; [apply HV1; by right|by apply F1].
Qed.

Lemma bfs_loop_total fuel adj V Q :
  size (universe adj ∖ V) + length Q ≤ fuel →
  is_Some (TraversableDigraph.bfs_loop fuel adj V Q).
Proof.
  revert V Q. induction fuel as [|fuel IH]; intros V [|n Q]; simpl;
    intros Hlt; [eauto|lia|eauto|].
  destruct (enqueue_spec (Adj.get adj n) (V, Q))
    as ((news & R1 & V1 & D1 & F1) & N1 & A1).
  set (st1 := TraversableDigraph.enqueue (Adj.get adj n) (V, Q)) in *.
  simpl in *.
  destruct (IH st1.1 st1.2) as [out E]; [|rewrite E; simpl; eauto].
  rewrite R1, V1, length_app.
  assert (size (universe adj ∖ (V ∪ list_to_set news)) + length news
          ≤ size (universe adj ∖ V)); [|lia].
  rewrite <- (size_list_to_set (C := gset node) news) by done.
  rewrite <- size_union by set_solver.
  apply subseteq_size. intros x.
  rewrite elem_of_union, !elem_of_difference, elem_of_list_to_set.
  intros [[? ?]|Hx]; [set_solver|]. split; [|by apply F1].
  eapply (edge_universe adj n). apply N1; [rewrite V1; set_solver|by apply F1].
Qed.

(** [bfs(s)] on a non-empty dictionary yields, without repetition,
    exactly the nodes reachable from [s]. *)
Lemma bfs_reachable adj s :
  adj ≠ [] →
  ∃ out, TraversableDigraph.bfs adj (Some s) = Some out ∧
         NoDup out ∧ ∀ x, x ∈ out ↔ Adj.path adj s x.
Proof.
  intros Hne. unfold TraversableDigraph.bfs.
  destruct adj as [|[k l] adj'] eqn:Eadj; [done|]. rewrite <- Eadj. clear Eadj.
  cbn -[TraversableDigraph.bfs_loop SortableDigraph.budget].
  destruct (bfs_loop_total (SortableDigraph.budget adj) adj {[s]} [s])
    as [out E].
  { pose proof (universe_budget adj {[s]}). simpl. unfold SortableDigraph.budget in *.
    lia. }
  rewrite E. exists out. split; [done|].
  apply bfs_loop_explored in E as (ND & IQ & OQ & C & P);
    [|set_solver|apply NoDup_singleton].
  split; [done|]. intros x. split.
  - intros Hx. by destruct (P x Hx) as (q & ->%list_elem_of_singleton & Hp).
  - intros Hp. assert (s ∈ out) as Hs by (apply IQ; by left).
    assert (∀ a b, a ∈ out → Adj.edge adj a b → b ∈ out) as C'.
    { intros a b Ha Hab. destruct (C a b Ha Hab) as [Hb|Hb]; [|done].
      by apply elem_of_singleton in Hb as ->. }
    clear IQ OQ P C. induction Hp as [|a b c Hab _ IHp]; [done|].
    apply IHp. by apply (C' a b).
Qed.
End bfs.

(** ** What the traversals yield *)

Section traversal_claims.
Context {node : Type} `{Countable node}.
Implicit Types (adj : @Adj.t node) (s : node).

(** C7, as amended. From a node [s] of the dictionary, [dfs(s)] and
    [bfs(s)] each yield exactly the nodes reachable from [s] along
    directed edges, every one of them once. *)
Theorem traversal_yields_reachable adj s :
  s ∈ Adj.keys adj →
  (∃ out, TraversableDigraph.dfs adj (Some s) None = Some out ∧
          NoDup out ∧ ∀ x, x ∈ out ↔ Adj.path adj s x) ∧
  (∃ out, TraversableDigraph.bfs adj (Some s) = Some out ∧
          NoDup out ∧ ∀ x, x ∈ out ↔ Adj.path adj s x).
Proof.
  intros Hs. split; [apply dfs_reachable|apply bfs_reachable].
  intros ->. by apply elem_of_nil in Hs.
Qed.

(** C9, as amended. For a start that is not a key, [dfs(start)] yields
    the start itself and nothing else; so does [bfs(start)], unless the
    dictionary is empty, in which case it yields nothing. Neither raises. *)
Theorem traversal_absent_start adj s :
  s ∉ Adj.keys adj →
  TraversableDigraph.dfs adj (Some s) None = Some [s] ∧
  TraversableDigraph.bfs adj (Some s) =
    Some (match adj with [] => [] | _ :: _ => [s] end).
Proof.
  intros Hs. pose proof (get_absent _ _ Hs) as Hg. split.
  - unfold TraversableDigraph.dfs, SortableDigraph.budget. simpl.
    destruct (decide (s ∈ (∅ : gset node))) as [Hin|_];
      [by apply not_elem_of_empty in Hin|].
    rewrite Hg. reflexivity.
  - unfold TraversableDigraph.bfs, SortableDigraph.budget.
    destruct adj as [|[k l] adj'] eqn:E; [done|]. rewrite <- E in *.
    simpl. rewrite Hg. by destruct (length (Adj.mentioned adj)).
Qed.
End traversal_claims.

Lemma one_edge_built :
  SortableDigraph.add_edge 0 1 SortableDigraph.init = (Eff.Returns (), one_edge).
Proof. reflexivity. Qed.

(** C7, counterexample. In the dictionary with the single edge [0 -> 1],
    node [0] is in the component of [1], yet the traversals from [1] yield
    only [1]. *)
Lemma traversal_component_counterexample :
  1 ∈ Adj.keys one_edge ∧ ¬ yields_component component one_edge 1.
Proof.
  split; [vm_compute; set_solver|].
  intros [(out & Hd & _ & Hout) _].
  vm_compute in Hd. injection Hd as <-.
  assert (0 ∈ [1]) as Hin; [|set_solver].
  apply Hout. apply rtc_once. right. unfold Adj.edge. vm_compute. set_solver.
Qed.

(** Nor do the traversals yield the strongly connected component: from
    [0] they yield [1], which does not reach [0] back. *)
Lemma traversal_strong_component_fails :
  0 ∈ Adj.keys one_edge ∧ ¬ yields_component strong_component one_edge 0.
Proof.
  split; [vm_compute; set_solver|].
  intros [(out & Hd & _ & Hout) _].
  vm_compute in Hd. injection Hd as <-.
  assert (strong_component one_edge 0 1) as [_ Hback] by (apply Hout; set_solver).
  apply rtc_inv in Hback as [|(y & Hy & _)]; [done|].
  vm_compute in Hy. set_solver.
Qed.

(** C9, counterexample. In the dictionary holding the single node [0],
    the traversals from the absent node [1] yield [1]. *)
Lemma traversal_absent_start_counterexample :
  ¬ absent_start_yields_nothing [(0, [])] 1.
Proof.
  intros Hc. destruct Hc as [Hd _]; [vm_compute; set_solver|].
  vm_compute in Hd. done.
Qed.

(** C7, on the demo graph of the source. *)
Lemma traversal_yields_reachable_witness :
  let adj := diamond in
  (∃ out, TraversableDigraph.dfs adj (Some 1) None = Some out ∧
          NoDup out ∧ ∀ x, x ∈ out ↔ Adj.path adj 1 x) ∧
  (∃ out, TraversableDigraph.bfs adj (Some 1) = Some out ∧
          NoDup out ∧ ∀ x, x ∈ out ↔ Adj.path adj 1 x).
Proof.
  apply (traversal_yields_reachable (node := nat)). vm_compute. left.
Defined.

Lemma traversal_absent_start_witness :
  TraversableDigraph.dfs one_edge (Some 7) None = Some [7] ∧
  TraversableDigraph.bfs one_edge (Some 7) = Some [7].
Proof.
  apply (traversal_absent_start one_edge 7). vm_compute.
  intros Hin. repeat (apply elem_of_cons in Hin as [Hin|Hin]; [discriminate|]).
  by apply elem_of_nil in Hin.
Defined.

(** ** Breadth-first layering *)

Section layering.
Context {node : Type} `{Countable node}.
Implicit Types (adj : @Adj.t node) (s n : node) (V : gset node).
Implicit Types (lev : node → nat).

Lemma sorted_pairwise (R : relation node) l :
  (∀ x y, x ∈ l → y ∈ l → R x y) → StronglySorted R l.
Proof.
  induction l as [|a l IH]; intros HR; constructor.
  - apply IH. intros x y Hx Hy. apply HR; by right.
  - apply Forall_forall. intros y Hy. apply HR; [by left|by right].
Qed.

Lemma sorted_transfer (R R' : relation node) l :
  (∀ x y, x ∈ l → y ∈ l → R x y → R' x y) →
  StronglySorted R l → StronglySorted R' l.
Proof.
  induction l as [|a l IH]; intros HR Hs; [constructor|].
  apply StronglySorted_cons in Hs as [Ha Hs]. constructor.
  - apply IH; [|done]. intros x y Hx Hy. apply HR; by right.
  - apply Forall_forall. intros y Hy. apply HR; [by left|by right|].
    by eapply Forall_forall in Ha.
Qed.

Lemma sorted_head (R : relation node) a l x :
  StronglySorted R (a :: l) → x ∈ l → R a x.
Proof.
  intros [Ha _]%StronglySorted_cons Hx. by eapply Forall_forall in Ha.
Qed.

Lemma sorted_lookup (R : relation node) l i j x y :
  StronglySorted R l → i < j → l !! i = Some x → l !! j = Some y → R x y.
Proof.
  intros Hs. revert i j. induction Hs as [|a l Hs IH Ha]; intros i j Hij Hi Hj.
  - by rewrite lookup_nil in Hi.
  - destruct j as [|j]; [lia|]. simpl in Hj. destruct i as [|i]; simpl in Hi.
    + simplify_eq. eapply Forall_forall in Ha; [done|].
      by eapply list_elem_of_lookup_2.
    + apply (IH i j); [lia|done|done].
Qed.

(** Every node within the distance of the queue's head is marked. *)
Lemma layered_complete adj s lev V n Q d y :
  layered adj s lev V (n :: Q) →
  nsteps (Adj.edge adj) d s y → d ≤ lev n → y ∈ V.
Proof.
  intros HL. revert y. induction d as [|d IH]; intros y Hp Hd.
  - inversion Hp; subst. apply (lay_start _ _ _ _ _ HL).
  - apply nsteps_inv_r in Hp as (z & Hz & Hzy).
    assert (z ∈ V) as HzV by (apply IH; [done|lia]).
    assert (lev z ≤ d) as Hlz
      by (by apply (lay_dist _ _ _ _ _ HL z HzV)).
    assert (z ∉ n :: Q) as HzQ.
    { intros [->|Hin]%elem_of_cons; [lia|].
      pose proof (sorted_head _ _ _ _ (lay_sorted _ _ _ _ _ HL) Hin). simpl in *.
      lia. }
    by apply (lay_done _ _ _ _ _ HL z HzV HzQ).
Qed.

Lemma layered_init adj s : layered adj s (λ _, 0) {[s]} [s].
Proof.
  split.
  - set_solver.
  - intros x ->%elem_of_singleton. split; [constructor|lia].
  - set_solver.
  - apply sorted_pairwise. done.
  - intros; lia.
  - intros x Hx Hn. set_solver.
Qed.

(** One turn of the loop keeps the state layered; the nodes it enqueues
    are one edge farther than the node it dequeued. *)
Lemma layered_step adj s lev V n Q :
  layered adj s lev V (n :: Q) →
  ∃ lev1,
    (∀ x, x ∈ V → lev1 x = lev x) ∧
    layered adj s lev1
      (TraversableDigraph.enqueue (Adj.get adj n) (V, Q)).1
      (TraversableDigraph.enqueue (Adj.get adj n) (V, Q)).2 ∧
    (∀ q, q ∈ (TraversableDigraph.enqueue (Adj.get adj n) (V, Q)).2 →
          lev n ≤ lev1 q).
Proof.
  intros HL.
  destruct (enqueue_spec (Adj.get adj n) (V, Q))
    as ((news & R1 & V1 & D1 & F1) & N1 & A1).
  set (st1 := TraversableDigraph.enqueue (Adj.get adj n) (V, Q)) in *.
  simpl in *.
  set (lev1 := λ x, if decide (x ∈ V) then lev x else S (lev n)).
  assert (∀ x, x ∈ V → lev1 x = lev x) as Hagree
    by (intros x Hx; unfold lev1; by rewrite decide_True).
  assert (∀ x, x ∈ news → lev1 x = S (lev n)) as Hnew
    by (intros x Hx; unfold lev1; rewrite decide_False; [done|by apply F1]).
  assert (n ∈ V) as HnV by (apply (lay_queue _ _ _ _ _ HL); by left).
  assert (∀ x, x ∈ st1.2 ↔ x ∈ Q ∨ x ∈ news) as HQ1
    by (intros; rewrite R1; apply elem_of_app).
  assert (∀ x, x ∈ st1.1 ↔ x ∈ V ∨ x ∈ news) as HV1
    by (intros; rewrite V1; set_solver).
  assert (∀ q, q ∈ Q → q ∈ V ∧ lev n ≤ lev q ∧ lev q ≤ S (lev n)) as HQ.
  { intros q Hq. split; [apply (lay_queue _ _ _ _ _ HL); by right|]. split.
    - by apply (sorted_head _ _ _ _ (lay_sorted _ _ _ _ _ HL)).
    - apply (lay_span _ _ _ _ _ HL); [by left|by right]. }
  assert (∀ q, q ∈ st1.2 → lev n ≤ lev1 q ∧ lev1 q ≤ S (lev n)) as Hband.
  { intros q [Hq|Hq]%HQ1.
    - destruct (HQ q Hq) as (? & ? & ?). rewrite Hagree by done. lia.
    - rewrite Hnew by done. lia. }
  exists lev1. split; [done|]. split; [|intros; by apply Hband].
  split.
  - apply HV1. left. apply (lay_start _ _ _ _ _ HL).
  - intros x [Hx|Hx]%HV1.
    + rewrite Hagree by done. by apply (lay_dist _ _ _ _ _ HL).
    + rewrite Hnew by done.
      assert (Adj.edge adj n x) as Hnx
        by (apply N1; [apply HV1; by right|by apply F1]).
      split.
      * eapply nsteps_r; [|exact Hnx]. by apply (lay_dist _ _ _ _ _ HL).
      * intros d' Hd'. destruct (decide (d' ≤ lev n)) as [Hle|]; [|lia].
        destruct (F1 x Hx). by eapply layered_complete.
  - intros x [Hx|Hx]%HQ1; apply HV1; [left; by apply HQ|by right].
  - rewrite R1. apply StronglySorted_app. split; [|split].
    + intros x1 x2 Hx1 Hx2. destruct (HQ x1 Hx1) as (? & ? & ?).
      rewrite Hagree, Hnew by done. done.
    + pose proof (lay_sorted _ _ _ _ _ HL) as [_ Hs]%StronglySorted_cons.
      eapply sorted_transfer; [|exact Hs]. simpl.
      intros x y Hx Hy. destruct (HQ x Hx), (HQ y Hy).
      by rewrite !Hagree.
    + apply sorted_pairwise. intros x y Hx Hy. by rewrite !Hnew.
  - intros x y Hx Hy. destruct (Hband x Hx), (Hband y Hy). lia.
  - intros x Hx Hn.
    assert (x ∈ V ∧ x ∉ Q) as [HxV HxQ].
    { apply HV1 in Hx as [Hx|Hx].
      - split; [done|]. intros Hq. apply Hn, HQ1. by left.
      - destruct Hn. apply HQ1. by right. }
    rewrite Hagree by done.
    destruct (decide (x = n)) as [->|Hne].
    + split; [apply A1|]. intros q Hq. by apply Hband.
    + destruct (lay_done _ _ _ _ _ HL x HxV) as [Hc Hl].
      { intros [->|?]%elem_of_cons; done. }
      split.
      * intros y Hy. apply HV1. left. by apply Hc.
      * intros q Hq. destruct (Hband q Hq).
        assert (lev x ≤ lev n) by (apply Hl; by left). lia.
Qed.
Lemma bfs_loop_layered fuel adj s lev V Q out :
  layered adj s lev V Q →
  TraversableDigraph.bfs_loop fuel adj V Q = Some out →
  ∃ lev',
    (∀ x, x ∈ V → lev' x = lev x) ∧
    (∀ x, x ∈ out → dist adj s x (lev' x)) ∧
    StronglySorted (λ x y, lev' x ≤ lev' y) out ∧
    (∀ b, (∀ q, q ∈ Q → b ≤ lev q) → ∀ y, y ∈ out → b ≤ lev' y).
Proof.
  revert lev V Q out. induction fuel as [|fuel IH]; intros lev V [|n Q] out;
    simpl; intros HL Hb; simplify_eq.
  1,2: exists lev; split; [done|]; split; [by intros ? ?%elem_of_nil|];
       split; [constructor|]; by intros ? ? ? ?%elem_of_nil.
  destruct (layered_step _ _ _ _ _ _ HL) as (lev1 & Hagree & HL1 & Hlow).
  set (st1 := TraversableDigraph.enqueue (Adj.get adj n) (V, Q)) in *.
  destruct (TraversableDigraph.bfs_loop fuel adj st1.1 st1.2) as [out1|] eqn:E;
    simpl in Hb; [|done].
  simplify_eq.
  destruct (IH _ _ _ _ HL1 E) as (lev' & Hagree' & Hdist & Hsort & Hbound).
  assert (V ⊆ st1.1) as Hsub.
  { destruct (enqueue_spec (Adj.get adj n) (V, Q)) as (Hext & _).
    apply (extends_subseteq _ _ Hext). }
  assert (n ∈ V) as HnV by (apply (lay_queue _ _ _ _ _ HL); by left).
  assert (∀ x, x ∈ V → lev' x = lev x) as Hag
    by (intros x Hx; rewrite Hagree' by (by apply Hsub); by apply Hagree).
  assert (∀ y, y ∈ out1 → lev n ≤ lev' y) as Hhead
    by (intros y Hy; by apply (Hbound (lev n) Hlow)).
  exists lev'. split; [done|]. split; [|split].
  - intros x [->|Hx]%elem_of_cons; [|by apply Hdist].
    rewrite Hag by done. by apply (lay_dist _ _ _ _ _ HL).
  - constructor; [done|]. apply Forall_forall. intros y Hy.
    rewrite (Hag n HnV). by apply Hhead.
  - intros b Hb y [->|Hy]%elem_of_cons.
    + rewrite (Hag n HnV). apply Hb. by left.
    + etrans; [apply (Hb n); by left|by apply Hhead].
Qed.

(** C8. From a node [s] of the dictionary, [bfs(s)] lists nodes in
    non-decreasing order of edge-distance from [s]: of two yielded nodes,
    the one yielded first is at most as far as the other. *)
Theorem bfs_layering adj s :
  s ∈ Adj.keys adj →
  ∃ out, TraversableDigraph.bfs adj (Some s) = Some out ∧
    ∀ i j x y, i ≤ j → out !! i = Some x → out !! j = Some y →
      ∃ dx dy, dist adj s x dx ∧ dist adj s y dy ∧ dx ≤ dy.
Proof.
  intros Hs.
  destruct (bfs_reachable adj s) as (out & Hb & _);
    [intros ->; by apply elem_of_nil in Hs|].
  exists out. split; [done|].
  unfold TraversableDigraph.bfs in Hb.
  destruct adj as [|[k l] adj'] eqn:Eadj; [by apply elem_of_nil in Hs|].
  rewrite <- Eadj in *. clear Eadj.
  cbn -[TraversableDigraph.bfs_loop SortableDigraph.budget] in Hb.
  destruct (bfs_loop_layered _ _ _ _ _ _ _ (layered_init adj s) Hb)
    as (lev & _ & Hdist & Hsort & _).
  intros i j x y Hij Hi Hj. exists (lev x), (lev y).
  split; [by eapply Hdist, list_elem_of_lookup_2|].
  split; [by eapply Hdist, list_elem_of_lookup_2|].
  destruct (decide (i = j)) as [->|Hne]; [by simplify_eq|].
  apply (sorted_lookup _ _ i j x y Hsort); [lia|done|done].
Qed.
End layering.

Lemma bfs_layering_witness :
  let adj := diamond in
  ∃ out, TraversableDigraph.bfs adj (Some 1) = Some out ∧
    ∀ i j x y, i ≤ j → out !! i = Some x → out !! j = Some y →
      ∃ dx dy, dist adj 1 x dx ∧ dist adj 1 y dy ∧ dx ≤ dy.
Proof.
  apply (bfs_layering (node := nat)). vm_compute. left.
Defined.

Lemma topsort_valid_witness :
  ∃ out, SortableDigraph.topsort diamond = Some out ∧
         out ≡ₚ Adj.keys diamond ∧
         length out = length (Adj.keys diamond) ∧
         ∀ u v, Adj.edge diamond u v →
                ∃ i j, out !! i = Some u ∧ out !! j = Some v ∧ i < j.
Proof.
  apply (topsort_valid diamond).
  - apply wfb_sound. vm_compute. reflexivity.
  - apply acyclicb_sound. vm_compute. reflexivity.
Defined.

Lemma dag_invariant_witness :
  Adj.acyclic
    (DAG.add_edge 3 1
       (DAG.add_edge 2 3 (DAG.add_edge 1 2 SortableDigraph.init).2).2).2.
Proof.
  apply (dag_invariant (node := nat)).
  apply DAG.reachable_add_edge, DAG.reachable_add_edge,
    DAG.reachable_add_edge, DAG.reachable_init.
Defined.

(** ** The demo of the source *)

(** The traversals of the demo graph, as the script prints them. *)
Example demo_traversals :
  (SortableDigraph.add_edge 1 2 ;;; SortableDigraph.add_edge 1 3 ;;;
   SortableDigraph.add_edge 2 4 ;;; SortableDigraph.add_edge 3 4)
    SortableDigraph.init = (Eff.Returns (), diamond) ∧
  TraversableDigraph.dfs diamond (Some 1) None = Some [1; 2; 4; 3] ∧
  TraversableDigraph.bfs diamond (Some 1) = Some [1; 2; 3; 4] ∧
  TraversableDigraph.dfs diamond None None = Some [1; 2; 4; 3] ∧
  SortableDigraph.topsort diamond = Some [1; 3; 2; 4].
Proof. vm_compute. done. Qed.

(** The clothing DAG of the demo, with
    1 = shirt, 2 = tie, 3 = belt, 4 = jacket, 5 = pants, 6 = shoes, 7 = socks:
    its topological order, and the rejected edge [jacket -> shirt], which
    leaves the dictionary exactly as it was. *)
Example demo_dag :
  let build :=
    DAG.add_edge 1 2 ;;; DAG.add_edge 1 3 ;;; DAG.add_edge 2 4 ;;;
    DAG.add_edge 3 4 ;;; DAG.add_edge 5 6 ;;; DAG.add_edge 5 3 ;;;
    DAG.add_edge 7 6 in
  let dag := (build SortableDigraph.init).2 in
  dag = [(1, [2; 3]); (2, [4]); (3, [4]); (4, []); (5, [6; 3]); (6, []);
         (7, [6])] ∧
  SortableDigraph.topsort dag = Some [7; 5; 6; 1; 3; 2; 4] ∧
  DAG.add_edge 4 1 dag = (Eff.Raises (Eff.ValueError 4 1), dag).
Proof. vm_compute. done. Qed.

(** * Further properties of the three classes *)

(** ** Insertion *)

Section more_insertion.
Context {node : Type} `{Countable node}.
Implicit Types (adj : @Adj.t node) (u v w n : node).

(** X1. [add_node(n)] never raises and changes no neighbour list; it
    leaves the keys alone when [n] is one of them and otherwise appends
    [n], with an empty list, after all existing keys. *)
Theorem add_node_contract n adj :
  (SortableDigraph.add_node n adj).1 = Eff.Returns () ∧
  (∀ w, Adj.get (SortableDigraph.add_node n adj).2 w = Adj.get adj w) ∧
  (∀ w, w ∈ Adj.keys adj →
        Adj.lookup (SortableDigraph.add_node n adj).2 w = Adj.lookup adj w) ∧
  Adj.keys (SortableDigraph.add_node n adj).2 =
    (if decide (n ∈ Adj.keys adj) then Adj.keys adj
     else Adj.keys adj ++ [n]) ∧
  (n ∉ Adj.keys adj →
     Adj.lookup (SortableDigraph.add_node n adj).2 n = Some []).
Proof.
  split; [apply add_node_returns|]. split; [apply add_node_get|].
  split; [|split].
  - intros w Hw. rewrite add_node_lookup. case_decide as Hn; [|done].
    subst w. apply lookup_is_Some in Hw as [ns Hns].
    unfold Adj.get. by rewrite Hns.
  - rewrite add_node_keys. case_decide; [by rewrite app_nil_r|done].
  - intros Hn. rewrite add_node_lookup, decide_True by done.
    by rewrite get_absent.
Qed.

(** X2. [add_node] is idempotent: a second call with the same node
    gives the same outcome and the same dictionary as the first; and on
    a node that is already a key the call changes nothing at all. *)
Theorem add_node_twice n adj :
  SortableDigraph.add_node n (SortableDigraph.add_node n adj).2 =
    SortableDigraph.add_node n adj ∧
  (n ∈ Adj.keys adj →
     SortableDigraph.add_node n adj = (Eff.Returns (), adj)).
Proof.
  split.
  - rewrite add_node_present by apply add_node_key.
    rewrite <- (add_node_returns n adj).
    by destruct (SortableDigraph.add_node n adj).
  - intros Hn. unfold SortableDigraph.add_node. by rewrite decide_True.
Qed.

(** X3. The base [add_edge(u, v)] keeps the existing keys in their
    order and appends the missing endpoints after them, [u] before [v]. *)
Theorem add_edge_key_order u v adj :
  Adj.keys (SortableDigraph.add_edge u v adj).2 =
    Adj.keys adj
    ++ (if decide (u ∈ Adj.keys adj) then [] else [u])
    ++ (if decide (v ∈ Adj.keys adj ∨ v = u) then [] else [v]).
Proof.
  destruct (add_edge_run u v adj) as (adj' & -> & _ & Hk). simpl.
  rewrite Hk, !add_node_keys, <- app_assoc. f_equal. f_equal.
  destruct (decide (u ∈ Adj.keys adj)) as [Hu|Hu].
  - rewrite app_nil_r. repeat case_decide; naive_solver.
  - case_decide as H1; case_decide as H2; try done.
    + destruct H2. apply elem_of_app in H1 as [?|?%list_elem_of_singleton];
        auto.
    + destruct H1. apply elem_of_app.
      destruct H2 as [?| ->]; [by left|right; by left].
Qed.

(** X4. Parallel edges are kept: adding the same edge twice leaves two
    copies of [v] at the end of [u]'s neighbour list. *)
Theorem add_edge_parallel u v adj :
  Adj.get
    (SortableDigraph.add_edge u v (SortableDigraph.add_edge u v adj).2).2 u
  = Adj.get adj u ++ [v; v].
Proof.
  rewrite !add_edge_get, !decide_True by done. by rewrite <- app_assoc.
Qed.

(** Insertions never remove an edge, so never a path. *)
Lemma path_add_edge_mono u v adj a b :
  Adj.path adj a b → Adj.path (SortableDigraph.add_edge u v adj).2 a b.
Proof.
  apply rtc_subrel. intros x y Hxy. apply add_edge_edge. by left.
Qed.

Lemma path_add_node_iff n adj a b :
  Adj.path (SortableDigraph.add_node n adj).2 a b ↔ Adj.path adj a b.
Proof.
  split; apply rtc_subrel; intros x y; unfold Adj.edge;
    by rewrite add_node_get.
Qed.

(** X5. The base class has no cycle check: when a path already leads
    from [v] to [u] (in particular when [u = v]), the base [add_edge(u, v)]
    still returns, and the dictionary it leaves has a directed cycle. *)
Theorem base_add_edge_closes_cycle u v adj :
  Adj.path adj v u →
  (SortableDigraph.add_edge u v adj).1 = Eff.Returns () ∧
  ¬ Adj.acyclic (SortableDigraph.add_edge u v adj).2.
Proof.
  intros Hp. split.
  - by destruct (add_edge_run u v adj) as (adj' & -> & _).
  - intros Hac. apply (Hac u). eapply tc_rtc_r.
    + apply tc_once, add_edge_edge. by right.
    + by apply path_add_edge_mono.
Qed.
End more_insertion.

Lemma base_add_edge_closes_cycle_witness :
  (SortableDigraph.add_edge 1 0 one_edge).1 = Eff.Returns () ∧
  ¬ Adj.acyclic (SortableDigraph.add_edge 1 0 one_edge).2.
Proof.
  apply (base_add_edge_closes_cycle 1 0 one_edge).
  apply rtc_once. vm_compute. left.
Defined.

(** ** The states of the objects *)

Section more_states.
Context {node : Type} `{Countable node}.
Implicit Types (adj front back final : @Adj.t node) (k u v : node).

(** X6. The dictionaries a [SortableDigraph] object can hold are exactly
    those with distinct keys in which every listed neighbour is a key:
    [add_node] and [add_edge] keep both facts, and every such dictionary
    is built by some sequence of calls. *)
Theorem base_states_characterised adj :
  SortableDigraph.reachable adj ↔
  NoDup (Adj.keys adj) ∧
  ∀ u ns v, Adj.lookup adj u = Some ns → v ∈ ns → v ∈ Adj.keys adj.
Proof.
  rewrite <- wf_iff_reachable. unfold Adj.wf, Adj.closed, Adj.edge, Adj.get.
  split; intros [Hnd Hcl]; (split; [done|]).
  - intros u ns v Hl Hv. apply (Hcl u). by rewrite Hl.
  - intros u v Hv. destruct (Adj.lookup adj u) as [ns|] eqn:E; simpl in Hv.
    + by eapply Hcl.
    + by apply elem_of_nil in Hv.
Qed.

Lemma lookup_app front back a :
  Adj.lookup (front ++ back) a =
    match Adj.lookup front a with
    | Some l => Some l
    | None => Adj.lookup back a
    end.
Proof.
  induction front as [|[k l] front IH]; simpl; [done|]. by case_decide.
Qed.

Lemma lookup_blank (ks : list node) a :
  Adj.lookup (SortableDigraph.blank ks) a =
    if decide (a ∈ ks) then Some [] else None.
Proof.
  induction ks as [|k ks IH]; simpl; [done|]. rewrite IH.
  repeat case_decide; set_solver.
Qed.

(** Extending one neighbour list, or filling in blank entries, only
    adds edges. *)
Lemma prefix_subgraph front k pre more back a b :
  Adj.edge (front ++ (k, pre) :: back) a b →
  Adj.edge (front ++ (k, pre ++ more) :: back) a b.
Proof.
  unfold Adj.edge, Adj.get. rewrite !lookup_app. simpl.
  destruct (Adj.lookup front a) as [l|]; [done|].
  case_decide; simpl; [rewrite elem_of_app; by left|done].
Qed.

Lemma blank_subgraph front back a b :
  Adj.edge (front ++ SortableDigraph.blank (Adj.keys back)) a b →
  Adj.edge (front ++ back) a b.
Proof.
  unfold Adj.edge, Adj.get. rewrite !lookup_app.
  destruct (Adj.lookup front a) as [l|]; [done|].
  rewrite lookup_blank. case_decide; simpl; by intros ?%elem_of_nil.
Qed.

Lemma dag_reachable_acyclic adj : DAG.reachable adj → Adj.acyclic adj.
Proof.
  induction 1 as [|adj n _ IH|adj u v _ IH].
  - apply acyclic_init.
  - by apply acyclic_add_node.
  - destruct (dag_add_edge_cases u v adj) as [[_ ->]|[Hnp ->]]; [done|].
    by apply acyclic_add_edge.
Qed.

Lemma dag_blank_reachable (ks : list node) :
  NoDup ks → DAG.reachable (SortableDigraph.blank ks).
Proof.
  induction ks as [|k ks IH] using rev_ind; intros Hnd; [constructor|].
  apply NoDup_app in Hnd as (Hnd & Hk & _).
  replace (SortableDigraph.blank (ks ++ [k]))
    with (SortableDigraph.add_node k (SortableDigraph.blank ks)).2.
  { constructor. by apply IH. }
  unfold SortableDigraph.add_node. rewrite decide_False.
  - unfold SortableDigraph.blank. by rewrite fmap_app.
  - rewrite keys_blank. intros Hin. apply (Hk k Hin). by left.
Qed.

(** Filling in one neighbour list through the cycle check: every edge
    added belongs to the acyclic finished dictionary, so none is refused. *)
Lemma dag_fill_reachable final front k pre more back :
  Adj.acyclic final →
  (∀ a b, Adj.edge (front ++ (k, pre ++ more)
                      :: SortableDigraph.blank (Adj.keys back)) a b →
          Adj.edge final a b) →
  k ∉ Adj.keys front →
  (∀ v, v ∈ more →
        v ∈ Adj.keys (front ++ (k, pre)
                        :: SortableDigraph.blank (Adj.keys back))) →
  DAG.reachable (front ++ (k, pre) :: SortableDigraph.blank (Adj.keys back)) →
  DAG.reachable
    (front ++ (k, pre ++ more) :: SortableDigraph.blank (Adj.keys back)).
Proof.
  intros Hac Hsub Hk. revert pre Hsub.
  induction more as [|v more IH]; intros pre Hsub Hin Hr;
    [by rewrite app_nil_r|].
  set (rest := SortableDigraph.blank (Adj.keys back)) in *.
  assert (∀ l, Adj.keys (front ++ (k, l) :: rest)
               = Adj.keys (front ++ (k, pre) :: rest)) as Hkeys
    by (intros; unfold Adj.keys; by rewrite !fmap_app).
  assert (pre ++ v :: more = (pre ++ [v]) ++ more) as Hassoc
    by by rewrite <- app_assoc.
  rewrite Hassoc in *.
  apply IH; [done| |].
  - intros w Hw. rewrite Hkeys. apply Hin. by right.
  - replace (front ++ (k, pre ++ [v]) :: rest)
      with (DAG.add_edge k v (front ++ (k, pre) :: rest)).2;
      [by constructor|].
    destruct (dag_add_edge_cases k v (front ++ (k, pre) :: rest))
      as [[Hp _]|[_ ->]].
    + destruct (Hac k). apply tc_rtc_r with v.
      * apply tc_once, Hsub. unfold Adj.edge, Adj.get.
        rewrite lookup_app.
        apply lookup_None in Hk. rewrite Hk. simpl.
        rewrite decide_True by done. simpl.
        rewrite !elem_of_app, list_elem_of_singleton. auto.
      * eapply rtc_subrel; [|exact Hp]. intros a b Hab. apply Hsub.
        rewrite <- app_assoc. by apply prefix_subgraph.
    + unfold SortableDigraph.add_edge, Eff.bind.
      rewrite add_node_present.
      2:{ unfold Adj.keys. rewrite fmap_app, elem_of_app. right. by left. }
      rewrite add_node_present by (apply Hin; by left).
      unfold SortableDigraph.append_neighbor. by rewrite append_at.
Qed.
Lemma dag_fill_all_reachable final back front :
  final = front ++ back →
  NoDup (Adj.keys final) →
  (∀ k l v, (k, l) ∈ back → v ∈ l → v ∈ Adj.keys final) →
  Adj.acyclic final →
  DAG.reachable (front ++ SortableDigraph.blank (Adj.keys back)) →
  DAG.reachable final.
Proof.
  revert front. induction back as [|[k l] back IH];
    intros front -> Hnd Hcl Hac Hr; [done|].
  assert (front ++ (k, l) :: back = (front ++ [(k, l)]) ++ back) as Hassoc
    by by rewrite <- app_assoc.
  apply (IH (front ++ [(k, l)])); [done|done| |done|].
  - intros k' l' v Hin Hv. eapply Hcl; [by right|done].
  - rewrite <- app_assoc. simpl.
    apply (dag_fill_reachable (front ++ (k, l) :: back) front k [] l back);
      [done| | | |done].
    + intros a b Hab. rewrite Hassoc. apply blank_subgraph.
      by rewrite <- app_assoc.
    + unfold Adj.keys in Hnd. rewrite fmap_app in Hnd.
      apply NoDup_app in Hnd as (_ & Hk & _).
      intros Hin. apply (Hk k Hin). by left.
    + intros v Hv.
      replace (Adj.keys (front ++ (k, []) :: SortableDigraph.blank (Adj.keys back)))
        with (Adj.keys (front ++ (k, l) :: back)).
      * eapply Hcl; [by left|done].
      * unfold Adj.keys at 1 2. rewrite !fmap_app. simpl.
        f_equal. f_equal. symmetry. apply keys_blank.
Qed.

(** X7. The dictionaries a [DAG] object can hold are exactly the
    well-formed acyclic ones: the cycle check keeps every state acyclic,
    and refuses no edge of an acyclic dictionary, so each of them can be
    built through [add_node] and [add_edge]. *)
Theorem dag_states_characterised adj :
  DAG.reachable adj ↔ Adj.wf adj ∧ Adj.acyclic adj.
Proof.
  split.
  - intros Hr. split; [by apply reachable_wf|by apply dag_reachable_acyclic].
  - intros [[Hnd Hcl] Hac].
    apply (dag_fill_all_reachable adj adj []); simpl; [done|done| |done|].
    + intros k l v Hin Hv. apply (Hcl k). unfold Adj.edge, Adj.get.
      by rewrite (entry_lookup _ _ _ Hnd Hin).
    + by apply dag_blank_reachable.
Qed.
End more_states.

(** ** The cycle check *)

Section more_dag.
Context {node : Type} `{Countable node}.
Implicit Types (adj : @Adj.t node) (u v a b s e n : node).

(** X8. On an acyclic dictionary the cycle check is exact:
    [DAG.add_edge(u, v)] raises precisely when the base-class insertion
    of [u -> v] would leave a directed cycle. *)
Theorem dag_rejects_exactly_cycles u v adj :
  Adj.acyclic adj →
  ((∃ ex adj', DAG.add_edge u v adj = (Eff.Raises ex, adj')) ↔
   ¬ Adj.acyclic (SortableDigraph.add_edge u v adj).2).
Proof.
  intros Hac.
  destruct (dag_add_edge_cases u v adj) as [[Hp Hr]|[Hnp Hr]]; rewrite Hr.
  - split; [|eauto]. intros _ Hac'. apply (Hac' u). apply tc_rtc_r with v.
    + apply tc_once, add_edge_edge. by right.
    + by apply path_add_edge_mono.
  - destruct (add_edge_run u v adj) as (adj1 & Hbase & _). split.
    + rewrite Hbase. by intros (? & ? & [=]).
    + intros Hcyc. destruct Hcyc. by apply acyclic_add_edge.
Qed.

(** X9. Once [DAG.add_edge(u, v)] has returned, the reverse edge is
    refused: [add_edge(v, u)] on the resulting dictionary raises and
    leaves it unchanged. *)
Theorem dag_reverse_edge_rejected u v adj :
  (DAG.add_edge u v adj).1 = Eff.Returns () →
  DAG.add_edge v u (DAG.add_edge u v adj).2 =
    (Eff.Raises (Eff.ValueError v u), (DAG.add_edge u v adj).2).
Proof.
  intros Hret.
  destruct (dag_add_edge_cases u v adj) as [[_ Hr]|[_ Hr]];
    rewrite Hr in *; [done|].
  destruct (dag_add_edge_cases v u (SortableDigraph.add_edge u v adj).2)
    as [[_ ->]|[Hnp _]]; [done|].
  destruct Hnp. apply rtc_once, add_edge_edge. by right.
Qed.

(** X10. No call destroys reachability: whenever [_has_path(a, b)]
    answers [True], it still does after any [add_node] and after any
    [DAG.add_edge], accepted or refused. *)
Theorem has_path_preserved a b adj :
  DAG.has_path adj a b = Some true →
  (∀ n, DAG.has_path (SortableDigraph.add_node n adj).2 a b = Some true) ∧
  (∀ u v, DAG.has_path (DAG.add_edge u v adj).2 a b = Some true).
Proof.
  intros Hab.
  assert (Adj.path adj a b) as Hp.
  { destruct (has_path_decides adj a b) as (c & Hc & Hiff).
    apply Hiff. congruence. }
  split.
  - intros n.
    destruct (has_path_decides (SortableDigraph.add_node n adj).2 a b)
      as (c & -> & Hiff).
    f_equal. by apply Hiff, path_add_node_iff.
  - intros u v.
    destruct (has_path_decides (DAG.add_edge u v adj).2 a b)
      as (c & -> & Hiff).
    f_equal. apply Hiff.
    destruct (dag_add_edge_cases u v adj) as [[_ ->]|[_ ->]]; [done|].
    by apply path_add_edge_mono.
Qed.

(** X11. From a node without out-neighbours, in particular from one
    that is not in the dictionary, [_has_path] answers [False] for every
    other target. *)
Theorem has_path_dead_end adj s e :
  Adj.get adj s = [] → s ≠ e → DAG.has_path adj s e = Some false.
Proof.
  intros Hg Hne.
  destruct (has_path_decides adj s e) as ([] & -> & Hiff); [|done].
  assert (Adj.path adj s e) as Hp by by apply Hiff.
  apply rtc_inv in Hp as [|(y & Hy & _)]; [done|].
  unfold Adj.edge in Hy. rewrite Hg in Hy. by apply elem_of_nil in Hy.
Qed.

(** X12. The two searches agree: [_has_path(s, e)] answers [True]
    exactly when [dfs(s)] yields [e]. *)
Theorem has_path_agrees_with_dfs adj s e :
  ∃ (found : bool) out,
    DAG.has_path adj s e = Some found ∧
    TraversableDigraph.dfs adj (Some s) None = Some out ∧
    (found = true ↔ e ∈ out).
Proof.
  destruct (has_path_decides adj s e) as (found & Hb & Hiff).
  destruct (dfs_reachable adj s) as (out & Hd & _ & Hout).
  exists found, out. split; [done|]. split; [done|].
  by rewrite Hiff, Hout.
Qed.
End more_dag.

Lemma dag_rejects_exactly_cycles_witness :
  (∃ e adj', DAG.add_edge 1 0 one_edge = (Eff.Raises e, adj')) ↔
  ¬ Adj.acyclic (SortableDigraph.add_edge 1 0 one_edge).2.
Proof.
  apply (dag_rejects_exactly_cycles 1 0 one_edge).
  apply acyclicb_sound. vm_compute. reflexivity.
Defined.

Lemma dag_reverse_edge_rejected_witness :
  DAG.add_edge 1 0 (DAG.add_edge 0 1 SortableDigraph.init).2 =
    (Eff.Raises (Eff.ValueError 1 0), (DAG.add_edge 0 1 SortableDigraph.init).2).
Proof.
  apply (dag_reverse_edge_rejected 0 1 SortableDigraph.init).
  vm_compute. reflexivity.
Defined.

Lemma has_path_preserved_witness :
  (∀ n, DAG.has_path (SortableDigraph.add_node n diamond).2 1 4 = Some true) ∧
  (∀ u v, DAG.has_path (DAG.add_edge u v diamond).2 1 4 = Some true).
Proof.
  apply (has_path_preserved 1 4 diamond). vm_compute. reflexivity.
Defined.

Lemma has_path_dead_end_witness : DAG.has_path diamond 4 1 = Some false.
Proof.
  apply (has_path_dead_end diamond 4 1); [vm_compute; reflexivity|lia].
Defined.

(** ** Topological sort *)

Section more_topsort.
Context {node : Type} `{Countable node}.
Implicit Types (adj : @Adj.t node) (u v x y : node).

(** X13. On every dictionary a graph object can hold, cyclic ones
    included, [topsort()] returns a permutation of the keys. *)
Theorem topsort_permutation adj :
  Adj.wf adj →
  ∃ out, SortableDigraph.topsort adj = Some out ∧ out ≡ₚ Adj.keys adj.
Proof.
  intros Hwf. pose proof Hwf as [Hnd _].
  destruct (topsort_run adj) as (st & Hrun & Ht & Hnd' & HV & Hk).
  exists (reverse st.2). split; [done|].
  rewrite reverse_Permutation. apply NoDup_Permutation; [done|done|].
  intros x. split; [|apply Hk]. intros Hx.
  apply universe_keys; [done|].
  eapply (for_each_visit_within _ _ _ (∅, [])); [exact Hrun| | |].
  - apply key_universe.
  - set_solver.
  - rewrite HV. set_solver.
Qed.

(** In a duplicate-free sequence that puts the source of every edge
    before its target, the start of every non-empty path comes before
    its end. *)
Lemma ordered_paths adj (out : list node) :
  NoDup out →
  (∀ u v, Adj.edge adj u v →
          ∃ i j, out !! i = Some u ∧ out !! j = Some v ∧ i < j) →
  ∀ x y, tc (Adj.edge adj) x y →
         ∃ i j, out !! i = Some x ∧ out !! j = Some y ∧ i < j.
Proof.
  intros Hnd Hord x y Hxy.
  induction Hxy as [x y Hxy|x y z Hxy _ IH]; [by apply Hord|].
  destruct (Hord x y Hxy) as (i & j & Hi & Hj & Hij).
  destruct IH as (j' & k & Hj' & Hk & Hjk).
  assert (j = j') as <- by by eapply NoDup_lookup.
  exists i, k. split; [done|]. split; [done|lia].
Qed.

(** X14. On a dictionary with a directed cycle [topsort()] still
    returns, but what it returns is not a topological order: some edge
    has its source at no smaller an index than its target. *)
Theorem topsort_cyclic_not_topological adj :
  ¬ Adj.acyclic adj →
  ∃ out, SortableDigraph.topsort adj = Some out ∧
    ¬ ∀ u v, Adj.edge adj u v →
             ∃ i j, out !! i = Some u ∧ out !! j = Some v ∧ i < j.
Proof.
  intros Hcyc.
  destruct (topsort_run adj) as (st & _ & Ht & Hnd & _).
  exists (reverse st.2). split; [done|]. intros Hord. apply Hcyc.
  intros x Hx.
  assert (NoDup (reverse st.2)) as Hnd' by by rewrite reverse_Permutation.
  destruct (ordered_paths adj _ Hnd' Hord x x Hx) as (i & j & Hi & Hj & Hij).
  assert (i = j) by by eapply NoDup_lookup. lia.
Qed.

(** X15. Whatever calls were made on a [DAG] object, accepted or
    refused, [topsort()] on it returns a topological order of its nodes:
    a permutation of the keys in which every edge goes from a smaller
    index to a larger one. *)
Theorem dag_topsort_valid adj :
  DAG.reachable adj →
  ∃ out, SortableDigraph.topsort adj = Some out ∧
         out ≡ₚ Adj.keys adj ∧
         ∀ u v, Adj.edge adj u v →
                ∃ i j, out !! i = Some u ∧ out !! j = Some v ∧ i < j.
Proof.
  intros Hr. pose proof (reachable_wf _ Hr) as Hwf.
  pose proof (dag_reachable_acyclic _ Hr) as Hac.
  destruct (topsort_run adj) as (st & Hrun & Ht & Hnd & HV & Hk).
  exists (reverse st.2). split; [done|]. split.
  - rewrite reverse_Permutation. destruct Hwf as [Hndk Hcl].
    apply NoDup_Permutation; [done|done|].
    intros x. split; [|apply Hk]. intros Hx.
    apply universe_keys; [by split|].
    eapply (for_each_visit_within _ _ _ (∅, [])); [exact Hrun| | |].
    + apply key_universe.
    + set_solver.
    + rewrite HV. set_solver.
  - intros u v Huv.
    assert (ordered adj st.2) as Ho.
    { eapply (for_each_visit_ordered _ _ _ (∅, [])); [|exact Hrun| | |].
      - intros. by eapply visit_ordered.
      - set_solver.
      - intros g m Hg. set_solver.
      - apply ordered_nil. }
    assert (u ∈ st.2) as [i Hi]%list_elem_of_lookup
      by (by eapply Hk, edge_key).
    destruct (Ho i u v Hi Huv) as (j & Hji & Hj).
    pose proof (lookup_lt_Some _ _ _ Hi) as Hlen.
    exists (length st.2 - S i), (length st.2 - S j).
    split; [|split; [|lia]].
    + apply reverse_lookup_Some. split; [|lia].
      by replace (length st.2 - S (length st.2 - S i)) with i by lia.
    + apply reverse_lookup_Some. split; [|lia].
      by replace (length st.2 - S (length st.2 - S j)) with j by lia.
Qed.
End more_topsort.

(** A two-node cycle, as the base class lets one build it. *)
Lemma two_cycle_cyclic :
  ¬ Adj.acyclic (SortableDigraph.add_edge 1 0 one_edge).2.
Proof.
  intros Hac. apply (Hac 0). apply tc_l with 1; [|apply tc_once].
  - vm_compute. left.
  - vm_compute. left.
Qed.

Lemma topsort_permutation_witness :
  ∃ out, SortableDigraph.topsort diamond = Some out ∧ out ≡ₚ Adj.keys diamond.
Proof.
  apply (topsort_permutation diamond). apply wfb_sound. vm_compute. reflexivity.
Defined.

Lemma topsort_cyclic_not_topological_witness :
  let adj := (SortableDigraph.add_edge 1 0 one_edge).2 in
  ∃ out, SortableDigraph.topsort adj = Some out ∧
    ¬ ∀ u v, Adj.edge adj u v →
             ∃ i j, out !! i = Some u ∧ out !! j = Some v ∧ i < j.
Proof.
  apply (topsort_cyclic_not_topological (node := nat)). apply two_cycle_cyclic.
Defined.

Lemma dag_topsort_valid_witness :
  let adj := (DAG.add_edge 2 3 (DAG.add_edge 1 2 SortableDigraph.init).2).2 in
  ∃ out, SortableDigraph.topsort adj = Some out ∧
         out ≡ₚ Adj.keys adj ∧
         ∀ u v, Adj.edge adj u v →
                ∃ i j, out !! i = Some u ∧ out !! j = Some v ∧ i < j.
Proof.
  apply (dag_topsort_valid (node := nat)).
  apply DAG.reachable_add_edge, DAG.reachable_add_edge, DAG.reachable_init.
Defined.

(** ** Traversals *)

Section more_dfs.
Context {node : Type} `{Countable node}.
Implicit Types (adj : @Adj.t node) (s n : node) (V W : gset node).
Implicit Types (st : gset node * list node).

(** A visit of an unmarked node yields that node first. *)
Lemma dfs_from_head fuel adj n st st' :
  TraversableDigraph.dfs_from fuel adj n st = Some st' → n ∉ st.1 →
  ∃ rest, st'.2 = st.2 ++ n :: rest.
Proof.
  destruct fuel as [|fuel]; simpl; [done|]. intros Hd Hn.
  rewrite decide_False in Hd by done.
  apply for_each_dfs_explored in Hd as [((new & R & _) & _) _];
    [|apply dfs_from_explored].
  exists new. simpl in R. by rewrite R, <- app_assoc.
Qed.

(** *** A caller-supplied [visited] set *)

Lemma for_each_dfs_avoiding fuel adj W l st st' :
  (∀ n st st', TraversableDigraph.dfs_from fuel adj n st = Some st' →
     W ⊆ st.1 →
     ∀ x, x ∈ st'.1 → x ∉ st.1 → rtc (edge_avoiding adj W) n x) →
  SortableDigraph.for_each (dfs_body fuel adj) l st = Some st' →
  W ⊆ st.1 →
  ∀ x, x ∈ st'.1 → x ∉ st.1 →
       ∃ m, m ∈ l ∧ (m ∉ W) ∧ rtc (edge_avoiding adj W) m x.
Proof.
  intros Hd. revert st. induction l as [|n l IH]; simpl; intros st Hl HV x Hx Hn.
  - by simplify_eq.
  - destruct (dfs_body fuel adj n st) as [st1|] eqn:E; simpl in Hl; [|done].
    unfold dfs_body in E. case_decide as Hin.
    + simplify_eq. destruct (IH _ Hl HV x Hx Hn) as (m & Hm & ?).
      exists m. split; [by right|done].
    + pose proof (dfs_from_explored _ _ _ _ _ E) as [[Hext _] _].
      pose proof (extends_subseteq _ _ Hext) as Hsub.
      destruct (decide (x ∈ st1.1)) as [Hx1|Hx1].
      * exists n. split; [by left|]. split; [set_solver|]. by eapply Hd.
      * destruct (IH _ Hl) with (x := x) as (m & Hm & ?);
          [set_solver|done|done|].
        exists m. split; [by right|done].
Qed.

Lemma dfs_from_avoiding fuel adj W n st st' :
  TraversableDigraph.dfs_from fuel adj n st = Some st' →
  W ⊆ st.1 →
  ∀ x, x ∈ st'.1 → x ∉ st.1 → rtc (edge_avoiding adj W) n x.
Proof.
  revert n st st'. induction fuel as [|fuel IH]; simpl;
    intros n st st' Hd HV x Hx Hn; [done|].
  case_decide as Hin; [by simplify_eq|].
  destruct (decide (x = n)) as [->|Hne]; [apply rtc_refl|].
  eapply (for_each_dfs_avoiding _ _ W) in Hd as (m & Hm & HmV & Hp);
    [| |simpl; set_solver|exact Hx|simpl; set_solver].
  - eapply rtc_l; [|exact Hp]. by split.
  - intros. by eapply IH.
Qed.

(** X16. [dfs(start, visited)] with a caller-supplied [visited] set
    yields nothing when [start] is in the set; otherwise it yields, each
    once, exactly the nodes that a path from [start] reaches without
    entering the set, and no node of the set. *)
Theorem dfs_with_visited adj s V :
  ∃ out, TraversableDigraph.dfs adj (Some s) (Some V) = Some out ∧
    NoDup out ∧
    (s ∈ V → out = []) ∧
    (∀ x, x ∈ out → x ∉ V) ∧
    (s ∉ V → ∀ x, x ∈ out ↔ rtc (edge_avoiding adj V) s x).
Proof.
  unfold TraversableDigraph.dfs.
  cbn -[TraversableDigraph.dfs_from SortableDigraph.budget].
  destruct (dfs_from_total (SortableDigraph.budget adj) adj s (V, []))
    as [st E]; [apply universe_budget|].
  rewrite E. simpl. exists st.2. split; [done|].
  pose proof (dfs_from_avoiding _ _ V _ _ _ E) as Hav.
  pose proof (dfs_from_explored _ _ _ _ _ E)
    as [((new & R & HV & D & F) & C & _) Hs].
  assert (s ∈ V → st.2 = []) as Hempty.
  { intros HsV. unfold SortableDigraph.budget in E. simpl in E.
    rewrite decide_True in E by done. by simplify_eq. }
  clear E. simpl in *. rewrite R in *. split; [done|]. split; [done|]. split.
  - done.
  - intros HsV x.
    assert (∀ y, y ∈ new ↔ y ∈ st.1 ∧ y ∉ V) as Hnew.
    { intros y. rewrite HV. split; [|set_solver].
      intros Hy. split; [set_solver|by apply F]. }
    split.
    + intros [Hx1 Hx2]%Hnew. by apply Hav.
    + intros Hp. apply Hnew. clear Hav Hempty.
      induction Hp as [|a b c [Hab Hb] _ IHp]; [by split|].
      apply IHp; [|done]. by eapply C.
Qed.

(** *** The traversal tree *)

Lemma for_each_dfs_parents fuel adj l st st' :
  (∀ n st st', TraversableDigraph.dfs_from fuel adj n st = Some st' →
     ∀ j x, st'.2 !! j = Some x → length st.2 ≤ j →
            x = n ∨ has_earlier_parent adj st'.2 j x) →
  SortableDigraph.for_each (dfs_body fuel adj) l st = Some st' →
  (∀ m, m ∈ l → ∃ i y, i < length st.2 ∧ st.2 !! i = Some y ∧
                       Adj.edge adj y m) →
  ∀ j x, st'.2 !! j = Some x → length st.2 ≤ j →
         has_earlier_parent adj st'.2 j x.
Proof.
  intros Hd. revert st. induction l as [|n l IH]; simpl; intros st Hl Hpar j x Hj Hlen.
  - simplify_eq. apply lookup_lt_Some in Hj. lia.
  - destruct (dfs_body fuel adj n st) as [st1|] eqn:E; simpl in Hl; [|done].
    assert (∃ new1, st1.2 = st.2 ++ new1 ∧
              ∀ j x, st1.2 !! j = Some x → length st.2 ≤ j →
                     has_earlier_parent adj st1.2 j x) as (new1 & R1 & P1).
    { unfold dfs_body in E. case_decide as Hin.
      - simplify_eq. exists []. rewrite app_nil_r. split; [done|].
        intros j' x' Hj' ?. apply lookup_lt_Some in Hj'. lia.
      - pose proof (dfs_from_explored _ _ _ _ _ E) as [[(new1 & R1 & _) _] _].
        exists new1. split; [done|]. intros j' x' Hj' Hlen'.
        destruct (Hd _ _ _ E j' x' Hj' Hlen') as [->|?]; [|done].
        destruct (Hpar n) as (i & y & Hi & Hy & Hyn); [by left|].
        exists i, y. split; [lia|]. split; [|done].
        rewrite R1. by apply lookup_app_l_Some. }
    pose proof Hl as Hl'.
    apply for_each_dfs_explored in Hl' as [[(new2 & R2 & _) _] _];
      [|apply dfs_from_explored].
    destruct (decide (j < length st1.2)) as [Hlt|Hge].
    + rewrite R2, lookup_app_l in Hj by done.
      destruct (P1 j x Hj Hlen) as (i & y & Hi & Hy & Hyx).
      exists i, y. split; [done|]. split; [|done].
      rewrite R2. by apply lookup_app_l_Some.
    + apply (IH st1); [done| |done|lia].
      intros m Hm. destruct (Hpar m) as (i & y & Hi & Hy & Hym); [by right|].
      exists i, y. rewrite R1, length_app. split; [lia|]. split; [|done].
      by apply lookup_app_l_Some.
Qed.

Lemma dfs_from_parents fuel adj n st st' :
  TraversableDigraph.dfs_from fuel adj n st = Some st' →
  ∀ j x, st'.2 !! j = Some x → length st.2 ≤ j →
         x = n ∨ has_earlier_parent adj st'.2 j x.
Proof.
  revert n st st'. induction fuel as [|fuel IH]; simpl;
    intros n st st' Hd j x Hj Hlen; [done|].
  case_decide as Hin.
  - simplify_eq. apply lookup_lt_Some in Hj. lia.
  - pose proof Hd as Hd'.
    apply for_each_dfs_explored in Hd' as [[(new & R & _) _] _];
      [|apply dfs_from_explored].
    simpl in R.
    destruct (decide (j = length st.2)) as [->|Hne].
    + left. rewrite R, <- app_assoc in Hj. simpl in Hj.
      rewrite list_lookup_middle in Hj by done. by simplify_eq.
    + right. eapply (for_each_dfs_parents _ _ _ _ _ IH) in Hd;
        [exact Hd| |exact Hj|simpl; rewrite length_app; simpl; lia].
      simpl. intros m Hm. exists (length st.2), n.
      rewrite length_app. simpl. split; [lia|]. split; [|done].
      by apply list_lookup_middle.
Qed.
End more_dfs.

Lemma dfs_with_visited_witness :
  ∃ out, TraversableDigraph.dfs diamond (Some 1) (Some {[2]}) = Some out ∧
    NoDup out ∧
    (1 ∈ ({[2]} : gset nat) → out = []) ∧
    (∀ x, x ∈ out → x ∉ ({[2]} : gset nat)) ∧
    (1 ∉ ({[2]} : gset nat) →
       ∀ x, x ∈ out ↔ rtc (edge_avoiding diamond {[2]}) 1 x).
Proof. apply (dfs_with_visited diamond 1 {[2]}). Defined.

Section more_traversals.
Context {node : Type} `{Countable node}.
Implicit Types (adj : @Adj.t node) (s n : node) (V : gset node).

Lemma bfs_loop_parents fuel adj s (pre : list node) V Q out :
  TraversableDigraph.bfs_loop fuel adj V Q = Some out →
  (∀ q, q ∈ Q → q = s ∨ ∃ i y, pre !! i = Some y ∧ Adj.edge adj y q) →
  ∀ j x, out !! j = Some x →
         x = s ∨ has_earlier_parent adj (pre ++ out) (length pre + j) x.
Proof.
  revert pre V Q out. induction fuel as [|fuel IH]; intros pre V [|n Q] out;
    simpl; intros Hb Hpar j x Hj; simplify_eq;
    try by rewrite lookup_nil in Hj.
  destruct (enqueue_spec (Adj.get adj n) (V, Q))
    as ((news & R1 & V1 & D1 & F1) & N1 & A1).
  set (st1 := TraversableDigraph.enqueue (Adj.get adj n) (V, Q)) in *.
  simpl in *.
  destruct (TraversableDigraph.bfs_loop fuel adj st1.1 st1.2) as [out1|] eqn:E;
    simpl in Hb; [|done].
  simplify_eq. destruct j as [|j]; simpl in Hj.
  - simplify_eq. destruct (Hpar x) as [->|(i & y & Hi & Hy)]; [by left|by left|].
    right. exists i, y. pose proof (lookup_lt_Some _ _ _ Hi).
    split; [lia|]. split; [by apply lookup_app_l_Some|done].
  - destruct (IH (pre ++ [n]) _ _ _ E) with (j := j) (x := x)
      as [->|(i & y & Hi & Hy & Hyx)]; [|done|by left|].
    + intros q. rewrite R1. intros [Hq|Hq]%elem_of_app.
      * destruct (Hpar q) as [->|(i & y & Hi & Hy)]; [by right|by left|].
        right. exists i, y. split; [by apply lookup_app_l_Some|done].
      * right. exists (length pre), n. split; [by apply list_lookup_middle|].
        apply N1; [rewrite V1; set_solver|by apply F1].
    + right. exists i, y. rewrite length_app in Hi. simpl in Hi.
      split; [lia|]. split; [|done].
      by rewrite <- app_assoc in Hy.
Qed.

(** [bfs(s)] on a non-empty dictionary yields [s] first. *)
Lemma bfs_head adj s out :
  TraversableDigraph.bfs adj (Some s) = Some out → adj ≠ [] →
  head out = Some s.
Proof.
  unfold TraversableDigraph.bfs, SortableDigraph.budget.
  destruct adj as [|[k l] adj'] eqn:Eadj; [done|]. rewrite <- Eadj.
  simpl. intros Hb _.
  destruct (TraversableDigraph.bfs_loop _ _ _ _); by simplify_eq/=.
Qed.

Lemma dfs_head adj s out :
  TraversableDigraph.dfs adj (Some s) None = Some out → head out = Some s.
Proof.
  unfold TraversableDigraph.dfs.
  cbn -[TraversableDigraph.dfs_from SortableDigraph.budget].
  destruct (TraversableDigraph.dfs_from _ _ _ _) as [st|] eqn:E; [|done].
  simpl. intros [= <-].
  apply dfs_from_head in E as [rest ->]; [done|set_solver].
Qed.

(** X17. From a node [s] of the dictionary, [dfs(s)] and [bfs(s)] both
    yield [s] first, and they yield the same nodes: one sequence is a
    permutation of the other. *)
Theorem dfs_bfs_same_nodes adj s :
  s ∈ Adj.keys adj →
  ∃ d b, TraversableDigraph.dfs adj (Some s) None = Some d ∧
         TraversableDigraph.bfs adj (Some s) = Some b ∧
         head d = Some s ∧ head b = Some s ∧ d ≡ₚ b.
Proof.
  intros Hs.
  assert (adj ≠ []) as Hne by (intros ->; by apply elem_of_nil in Hs).
  destruct (dfs_reachable adj s) as (d & Hd & Nd & Rd).
  destruct (bfs_reachable adj s Hne) as (b & Hb & Nb & Rb).
  exists d, b. split; [done|]. split; [done|].
  split; [by apply (dfs_head adj)|]. split; [by apply (bfs_head adj)|].
  apply NoDup_Permutation; [done|done|]. intros x. by rewrite Rd, Rb.
Qed.

(** X18. With no start given, both traversals yield nothing on the empty
    dictionary; otherwise they start at the first-inserted key and yield
    exactly the nodes reachable from it. *)
Theorem traversal_default_start adj :
  match Adj.keys adj with
  | [] => TraversableDigraph.dfs adj None None = Some [] ∧
          TraversableDigraph.bfs adj None = Some []
  | k :: _ =>
      ∃ d b, TraversableDigraph.dfs adj None None = Some d ∧
             TraversableDigraph.bfs adj None = Some b ∧
             head d = Some k ∧ head b = Some k ∧
             (∀ x, x ∈ d ↔ Adj.path adj k x) ∧
             (∀ x, x ∈ b ↔ Adj.path adj k x)
  end.
Proof.
  destruct adj as [|[k l] adj'] eqn:Eadj; [done|].
  rewrite <- Eadj. replace (Adj.keys adj) with (k :: Adj.keys adj')
    by by rewrite Eadj.
  assert (adj ≠ []) as Hne by by rewrite Eadj.
  destruct (dfs_reachable adj k) as (d & Hd & _ & Rd).
  destruct (bfs_reachable adj k Hne) as (b & Hb & _ & Rb).
  assert (TraversableDigraph.dfs adj None None
          = TraversableDigraph.dfs adj (Some k) None) as Hd'
    by (unfold TraversableDigraph.dfs; by rewrite Eadj).
  assert (TraversableDigraph.bfs adj None
          = TraversableDigraph.bfs adj (Some k)) as Hb'
    by (unfold TraversableDigraph.bfs; by rewrite Eadj).
  exists d, b. rewrite Hd', Hb'. split; [done|]. split; [done|].
  split; [by apply (dfs_head adj)|]. split; [by apply (bfs_head adj)|]. done.
Qed.

(** X19. The traversals grow a tree: every node that [dfs(s)] or
    [bfs(s)] yields after the first is an out-neighbour of a node yielded
    earlier in the same sequence. *)
Theorem traversal_parents adj s :
  s ∈ Adj.keys adj →
  (∃ out, TraversableDigraph.dfs adj (Some s) None = Some out ∧
     ∀ j x, out !! j = Some x → 0 < j → has_earlier_parent adj out j x) ∧
  (∃ out, TraversableDigraph.bfs adj (Some s) = Some out ∧
     ∀ j x, out !! j = Some x → 0 < j → has_earlier_parent adj out j x).
Proof.
  intros Hs.
  assert (adj ≠ []) as Hne by (intros ->; by apply elem_of_nil in Hs).
  assert (∀ out : list node, NoDup out → head out = Some s →
            ∀ j, out !! j = Some s → 0 < j → False) as Hfirst.
  { intros out Hnd Hh j Hj Hpos. rewrite head_lookup in Hh.
    pose proof (NoDup_lookup _ _ _ _ Hnd Hh Hj). lia. }
  split.
  - destruct (dfs_reachable adj s) as (out & Hd & Nd & _).
    exists out. split; [done|]. intros j x Hj Hpos.
    pose proof (dfs_head _ _ _ Hd) as Hh.
    unfold TraversableDigraph.dfs in Hd.
    cbn -[TraversableDigraph.dfs_from SortableDigraph.budget] in Hd.
    destruct (TraversableDigraph.dfs_from _ _ _ _) as [st|] eqn:E; [|done].
    simpl in Hd. simplify_eq.
    destruct (dfs_from_parents _ _ _ _ _ E j x Hj) as [->|?];
      [simpl; lia| |done].
    destruct (Hfirst _ Nd Hh j Hj Hpos).
  - destruct (bfs_reachable adj s Hne) as (out & Hb & Nb & _).
    exists out. split; [done|]. intros j x Hj Hpos.
    pose proof (bfs_head _ _ _ Hb Hne) as Hh.
    unfold TraversableDigraph.bfs in Hb.
    destruct adj as [|[k l] adj'] eqn:Eadj; [done|]. rewrite <- Eadj in *.
    cbn -[TraversableDigraph.bfs_loop SortableDigraph.budget] in Hb.
    destruct (bfs_loop_parents _ _ s [] _ _ _ Hb) with (j := j) (x := x)
      as [->|?]; [| |by destruct (Hfirst _ Nb Hh j Hj Hpos)|done].
    + intros q ->%list_elem_of_singleton. by left.
    + done.
Qed.

Lemma path_keys adj s x :
  Adj.closed adj → s ∈ Adj.keys adj → Adj.path adj s x → x ∈ Adj.keys adj.
Proof.
  intros Hcl Hs Hp. induction Hp as [|a b c Hab _ IH]; [done|].
  apply IH. by apply (Hcl a).
Qed.

(** X20. On a dictionary a graph object can hold, the traversals from
    one of its nodes yield only nodes of the graph, so never more
    elements than there are keys. *)
Theorem traversal_within_graph adj s :
  Adj.wf adj → s ∈ Adj.keys adj →
  ∃ d b, TraversableDigraph.dfs adj (Some s) None = Some d ∧
         TraversableDigraph.bfs adj (Some s) = Some b ∧
         (∀ x, x ∈ d → x ∈ Adj.keys adj) ∧
         (∀ x, x ∈ b → x ∈ Adj.keys adj) ∧
         length d ≤ length (Adj.keys adj) ∧
         length b ≤ length (Adj.keys adj).
Proof.
  intros [Hnd Hcl] Hs.
  assert (adj ≠ []) as Hne by (intros ->; by apply elem_of_nil in Hs).
  destruct (dfs_reachable adj s) as (d & Hd & Nd & Rd).
  destruct (bfs_reachable adj s Hne) as (b & Hb & Nb & Rb).
  assert (∀ x, x ∈ d → x ∈ Adj.keys adj) as Hdk
    by (intros x Hx; eapply path_keys; [done|done|by apply Rd]).
  assert (∀ x, x ∈ b → x ∈ Adj.keys adj) as Hbk
    by (intros x Hx; eapply path_keys; [done|done|by apply Rb]).
  exists d, b. repeat (split; [done|]). split.
  - by apply submseteq_length, NoDup_submseteq.
  - by apply submseteq_length, NoDup_submseteq.
Qed.
End more_traversals.

Lemma dfs_bfs_same_nodes_witness :
  ∃ d b, TraversableDigraph.dfs diamond (Some 1) None = Some d ∧
         TraversableDigraph.bfs diamond (Some 1) = Some b ∧
         head d = Some 1 ∧ head b = Some 1 ∧ d ≡ₚ b.
Proof. apply (dfs_bfs_same_nodes diamond 1). vm_compute. left. Defined.

Lemma traversal_parents_witness :
  (∃ out, TraversableDigraph.dfs diamond (Some 1) None = Some out ∧
     ∀ j x, out !! j = Some x → 0 < j → has_earlier_parent diamond out j x) ∧
  (∃ out, TraversableDigraph.bfs diamond (Some 1) = Some out ∧
     ∀ j x, out !! j = Some x → 0 < j → has_earlier_parent diamond out j x).
Proof. apply (traversal_parents diamond 1). vm_compute. left. Defined.

Lemma traversal_within_graph_witness :
  ∃ d b, TraversableDigraph.dfs diamond (Some 1) None = Some d ∧
         TraversableDigraph.bfs diamond (Some 1) = Some b ∧
         (∀ x, x ∈ d → x ∈ Adj.keys diamond) ∧
         (∀ x, x ∈ b → x ∈ Adj.keys diamond) ∧
         length d ≤ length (Adj.keys diamond) ∧
         length b ≤ length (Adj.keys diamond).
Proof.
  apply (traversal_within_graph diamond 1).
  - apply wfb_sound. vm_compute. reflexivity.
  - vm_compute. left.
Defined.
